(** * chesspi: the PGN <-> relational converter [app/common/game_parser.py]

    A shallow embedding of [GameParser] and of the Python built-ins it
    relies on, followed by the properties of name parsing, colour
    resolution, move storage, player de-duplication, formatting and
    filtering.

    Text is modelled as [string] whose characters are the code points
    0..255 (Latin-1); Python exceptions are modelled by the [res] type. *)

From Stdlib Require Import String Ascii List NArith ZArith Bool Lia.
From stdpp Require Import base option list strings gmap.

Local Open Scope string_scope.
Local Open Scope list_scope.

(** ** Exceptions and results *)

Inductive exn : Type :=
  | ValueError      (* str.split with an empty separator *)
  | AttributeError  (* attribute access on None, or .split on a list *)
  | KeyError        (* missing dictionary key *)
  | IndexError      (* list index out of range *)
  | StorageFailure. (* raised by the storage collaborator *)

Inductive res (A : Type) : Type :=
  | Ok (a : A)
  | Raise (e : exn).
Arguments Ok {A} a.
Arguments Raise {A} e.

#[global] Instance res_ret : MRet res := fun _ a => Ok a.
#[global] Instance res_bind : MBind res := fun _ _ f m =>
  match m with
  | Ok a => f a
  | Raise e => Raise e
  end.

(** ** Python's [str] methods used by the parser *)

Module Str.

(** [str.isspace] on one code point below 256. *)
Definition isspace (c : ascii) : bool :=
  let n := N_of_ascii c in
  ((9 <=? n) && (n <=? 13) || (28 <=? n) && (n <=? 32)
   || (n =? 133) || (n =? 160))%N.

(** [str.lower] on one code point below 256: A-Z and the Latin-1
    capitals 192..222 (except the multiplication sign 215) move up by 32. *)
Definition lower_char (c : ascii) : ascii :=
  let n := N_of_ascii c in
  if ((65 <=? n) && (n <=? 90)
      || (192 <=? n) && (n <=? 222) && negb (n =? 215))%N
  then ascii_of_N (n + 32) else c.

Fixpoint lower (s : string) : string :=
  match s with
  | "" => ""
  | String c s' => String (lower_char c) (lower s')
  end.

Fixpoint lstrip (s : string) : string :=
  match s with
  | "" => ""
  | String c s' => if isspace c then lstrip s' else s
  end.

Fixpoint rstrip (s : string) : string :=
  match s with
  | "" => ""
  | String c s' =>
      match rstrip s' with
      | "" => if isspace c then "" else String c ""
      | r => String c r
      end
  end.

(** [s.strip()] *)
Definition strip (s : string) : string := lstrip (rstrip s).

(** [sep.join(l)] *)
Fixpoint join (sep : string) (l : list string) : string :=
  match l with
  | [] => ""
  | [x] => x
  | x :: l' => x ++ sep ++ join sep l'
  end.

(** Pushes a character onto the first field of a split. *)
Definition push (c : ascii) (l : list string) : list string :=
  match l with
  | [] => [String c ""]
  | h :: t => String c h :: t
  end.

(** The scan of [s.split(sep)] for a non-empty [sep]: occurrences of
    [sep] are found left to right without overlap; [skip] counts the
    characters of a matched separator still to be passed over. *)
Fixpoint split_scan (sep : string) (skip : nat) (s : string) : list string :=
  match s with
  | "" => [""]
  | String c s' =>
      match skip with
      | S k => split_scan sep k s'
      | O =>
          if String.prefix sep s
          then "" :: split_scan sep (String.length sep - 1) s'
          else push c (split_scan sep 0 s')
      end
  end.

(** [s.split(sep)] with [sep] a string; an empty separator raises
    [ValueError]. *)
Definition split (sep : string) (s : string) : res (list string) :=
  match sep with
  | "" => Raise ValueError
  | _ => Ok (split_scan sep 0 s)
  end.

(** The scan of [s.split()] / [s.split(None)]: fields are the maximal
    runs of non-whitespace characters; [tok] is the field being read. *)
Fixpoint split_ws_scan (tok : string) (s : string) : list string :=
  match s with
  | "" => match tok with "" => [] | _ => [tok] end
  | String c s' =>
      if isspace c
      then match tok with
           | "" => split_ws_scan "" s'
           | _ => tok :: split_ws_scan "" s'
           end
      else split_ws_scan (tok ++ String c "") s'
  end.

Definition split_ws (s : string) : list string := split_ws_scan "" s.

(** [needle in hay] *)
Fixpoint contains (needle hay : string) : bool :=
  String.prefix needle hay
  || match hay with
     | "" => false
     | String _ hay' => contains needle hay'
     end.

End Str.

(** ** The models module *)

(** Modelled from the spec: the [models] module ([Player], [Pairing],
    [Game]) is not among the sources.  Rows carry the fields named in the
    data model and read or written by the parser; every column holds the
    text of the corresponding tag, and primary keys are integers. *)

Module Player.
Record t : Type := mk { id : Z; first_name : string; last_name : string }.
End Player.

Module Pairing.
Record t : Type := mk { id : Z; game_id : Z; player_id : Z; color : string }.
End Pairing.

(** A Python value held by a game attribute or a dictionary entry. *)
Inductive value : Type :=
  | VStr (s : string)
  | VList (l : list string).

Module Game.
(** A [Game] model object.  [moves] is the delimited string in stored
    form.  [players] is the relationship loaded through the Pairing table
    when a game is fetched.  [attrs] holds the attributes that are not
    columns and are assigned on the object at run time. *)
Record t : Type := mk {
  id : Z;
  event : string;
  site : string;
  date : string;
  match_round : string;
  result : string;
  white_elo : string;
  black_elo : string;
  moves : value;
  eco : string;
  players : list Player.t;
  attrs : gmap string string
}.

(** [game.moves = v] *)
Definition set_moves (v : value) (g : t) : t :=
  mk (id g) (event g) (site g) (date g) (match_round g) (result g)
     (white_elo g) (black_elo g) v (eco g) (players g) (attrs g).

(** [game.<name> = v] for an attribute that is not a column. *)
Definition set_attr (name : string) (v : string) (g : t) : t :=
  mk (id g) (event g) (site g) (date g) (match_round g) (result g)
     (white_elo g) (black_elo g) (moves g) (eco g) (players g)
     (<[name := v]> (attrs g)).

(** The relationship [game.players] as loaded when the row is fetched. *)
Definition set_players (ps : list Player.t) (g : t) : t :=
  mk (id g) (event g) (site g) (date g) (match_round g) (result g)
     (white_elo g) (black_elo g) (moves g) (eco g) ps (attrs g).

(** The primary key given to the row when it is written. *)
Definition set_id (i : Z) (g : t) : t :=
  mk i (event g) (site g) (date g) (match_round g) (result g)
     (white_elo g) (black_elo g) (moves g) (eco g) (players g) (attrs g).
End Game.

(** A game as produced by the textual codec ([pgn.loads]). *)
Module ParsedGame.
Record t : Type := mk {
  event : string;
  site : string;
  date : string;
  round : string;
  result : string;
  whiteelo : string;
  blackelo : string;
  white : string;
  black : string;
  moves : list string;
  eco : string
}.
End ParsedGame.

(** ** The storage collaborator *)

(** Modelled from the spec: the [db] session of [app] is not among the
    sources.  The committed tables are what other readers can observe;
    [db.session.add] queues an object, [db.session.commit] writes the queue
    to the tables, giving each object the next primary key of its table.
    [fuse] is the number of storage operations that still succeed before
    one raises; [None] means no operation fails. *)

Record Store : Type := mkStore {
  player_rows : list Player.t;
  game_rows : list Game.t;
  pairing_rows : list Pairing.t
}.

Inductive pending_row : Type :=
  | NewPlayer (first_name last_name : string)
  | NewGame (g : Game.t)
  | NewPairing (game_id player_id : Z) (color : string).

Record Session : Type := mkSession {
  committed : Store;
  pending : list pending_row;
  fuse : option nat
}.

(** The next primary key of a table: one more than the largest key. *)
Definition next_id (ids : list Z) : Z := (1 + fold_right Z.max 0 ids)%Z.

(** Writes one queued object, returning its primary key. *)
Definition insert_row (r : pending_row) (st : Store) : Z * Store :=
  match r with
  | NewPlayer f l =>
      let i := next_id (map Player.id (player_rows st)) in
      (i, mkStore (player_rows st ++ [Player.mk i f l]) (game_rows st) (pairing_rows st))
  | NewGame g =>
      let i := next_id (map Game.id (game_rows st)) in
      (i, mkStore (player_rows st) (game_rows st ++ [Game.set_id i g]) (pairing_rows st))
  | NewPairing gid pid c =>
      let i := next_id (map Pairing.id (pairing_rows st)) in
      (i, mkStore (player_rows st) (game_rows st) (pairing_rows st ++ [Pairing.mk i gid pid c]))
  end.

(** Writes the queue in the order the objects were added. *)
Fixpoint flush (q : list pending_row) (st : Store) : list Z * Store :=
  match q with
  | [] => ([], st)
  | r :: q' =>
      let '(i, st1) := insert_row r st in
      let '(ids, st2) := flush q' st1 in
      (i :: ids, st2)
  end.

(** Computations over a state that may raise. *)
Definition ST (S A : Type) : Type := S -> res A * S.

Definition ret {S A} (a : A) : ST S A := fun s => (Ok a, s).
Definition bind {S A B} (m : ST S A) (f : A -> ST S B) : ST S B := fun s =>
  match m s with
  | (Ok a, s') => f a s'
  | (Raise e, s') => (Raise e, s')
  end.

Notation "x <- m ;; k" := (bind m (fun x => k))
  (at level 100, m at next level, right associativity).
Notation "m ;; k" := (bind m (fun _ => k))
  (at level 100, right associativity).

Definition raise {S A} (e : exn) : ST S A := fun s => (Raise e, s).
Definition lift {S A} (r : res A) : ST S A := fun s => (r, s).
Definition modify {S} (f : S -> S) : ST S unit := fun s => (Ok tt, f s).
Definition get {S} : ST S S := fun s => (Ok s, s).

Module db.

(** One round trip to the store: raises when the fuse has run out. *)
Definition io : ST Session unit := fun s =>
  match fuse s with
  | None => (Ok tt, s)
  | Some (S n) => (Ok tt, mkSession (committed s) (pending s) (Some n))
  | Some O => (Raise StorageFailure, s)
  end.

(** [db.session.add(obj)]; the result is the position of [obj] in the
    queue, by which its primary key is read after the commit. *)
Definition add (r : pending_row) : ST Session nat := fun s =>
  (Ok (length (pending s)),
   mkSession (committed s) (pending s ++ [r]) (fuse s)).

(** [db.session.commit()]; the result lists the primary keys given to
    the queued objects. *)
Definition commit : ST Session (list Z) :=
  io ;;
  (fun s =>
     let '(ids, st) := flush (pending s) (committed s) in
     (Ok ids, mkSession st [] (fuse s))).

(** [db.session.expunge_all()] *)
Definition expunge_all : ST Session unit :=
  modify (fun s => mkSession (committed s) [] (fuse s)).

(** [models.Player.query.filter_by(first_name=.., last_name=..)] *)
Definition player_filter_by (first last : string) (st : Store) : list Player.t :=
  filter (fun p => Player.first_name p = first ∧ Player.last_name p = last)
         (player_rows st).

(** [query.count()] *)
Definition count {A} (q : Store -> list A) : ST Session nat :=
  io ;; s <- get ;; ret (length (q (committed s))).

(** [query.first()] *)
Definition first {A} (q : Store -> list A) : ST Session (option A) :=
  io ;; s <- get ;; ret (head (q (committed s))).

(** [models.Pairing.query.filter_by(player_id=.., game_id=..).first()]
    on the rows of the Pairing table. *)
Definition pairing_first (rows : list Pairing.t) (player_id game_id : Z)
  : option Pairing.t :=
  head (filter (fun p => Pairing.player_id p = player_id
                         ∧ Pairing.game_id p = game_id) rows).

End db.

(** ** GameParser *)

(** [l[i]] for a list and a non-negative index. *)
Definition index {A} (l : list A) (i : nat) : res A :=
  match l !! i with
  | Some x => Ok x
  | None => Raise IndexError
  end.

(** [d[k]] for a dictionary. *)
Definition getitem {V} (d : gmap string V) (k : string) : res V :=
  match d !! k with
  | Some v => Ok v
  | None => Raise KeyError
  end.

(** [not x] for a primary key or [None]. *)
Definition not_ (x : option Z) : bool :=
  match x with
  | None => true
  | Some i => (i =? 0)%Z
  end.

(** The result of [format_game]. *)
Inductive formatted : Type :=
  | Dict (d : gmap string value)
  | Pgn (text : string).

Module GameParser.

(** The newline character. *)
Definition nl : string := String (ascii_of_nat 10) "".

Record t : Type := mk {
  pgn : option string;
  game_id : option Z;
  parsed_games : option (list ParsedGame.t);
  verbose : bool
}.

(** The dictionary [{'first_name': .., 'last_name': ..}]. *)
Record name_dict : Type := mk_name { first_name : string; last_name : string }.

(** The dictionary [{'white': <id>, 'black': <id>}]. *)
Record id_dict : Type := mk_ids { white : Z; black : Z }.

(** The [player] argument of [player_in_db]: a name string when
    [stringified] is true, a parsed name otherwise. *)
Inductive player_arg : Type :=
  | Stringified (name_string : string)
  | Parsed (d : name_dict).

Section Init.
(** [pgn.loads], the reader of the textual codec. *)
Variable loads : string -> res (list ParsedGame.t).

(** The value given to [self.pgn]. *)
Definition init_pgn (pgn_string delimiter : option string) : res (option string) :=
  match pgn_string with
  | None | Some "" => Ok None
  | Some s =>
      parts ← match delimiter with
              | None => Ok (Str.split_ws s)
              | Some d => Str.split d s
              end;
      Ok (Some (Str.join nl parts))
  end.

Definition init (pgn_string : option string) (game_id : option Z)
           (verbose : bool) (delimiter : option string) : res t :=
  text ← init_pgn pgn_string delimiter;
  games ← match text with
          | None | Some "" => Ok None
          | Some p => l ← loads p; Ok (Some l)
          end;
  Ok (mk text game_id games verbose).
End Init.

Definition parse_player_name (name_string : string) : res name_dict :=
  name_array ← Str.split "," name_string;
  first ← (if (1 <? length name_array)%nat
           then x ← index name_array 1; Ok (Str.strip x)
           else Ok "");
  last ← (x ← index name_array 0; Ok (Str.strip x));
  Ok (mk_name first last).

Definition player_in_db (player : player_arg) : ST Session (option Z) :=
  d <- lift (match player with
             | Stringified s => parse_player_name s
             | Parsed d => Ok d
             end) ;;
  let player_in_db := db.player_filter_by (first_name d) (last_name d) in
  n <- db.count player_in_db ;;
  if (0 <? n)%nat
  then r <- db.first player_in_db ;;
       match r with
       | Some p => ret (Some (Player.id p))
       | None => raise AttributeError
       end
  else ret None.

Definition unparse_players_with_color (pairing_rows : list Pairing.t)
           (players : list Player.t) (game_id : Z) : res (gmap string Player.t) :=
  let players_obj : gmap string Player.t := ∅ in
  p0 ← index players 0;
  let pairing_1 := db.pairing_first pairing_rows (Player.id p0) game_id in
  p1 ← index players 1;
  let pairing_2 := db.pairing_first pairing_rows (Player.id p1) game_id in
  match pairing_1 with
  | None => Raise AttributeError
  | Some r1 =>
      if String.eqb (Pairing.color r1) "white"
      then Ok (<["black" := p1]> (<["white" := p0]> players_obj))
      else match pairing_2 with
           | None => Raise AttributeError
           | Some r2 =>
               if String.eqb (Pairing.color r2) "white"
               then Ok (<["black" := p0]> (<["white" := p1]> players_obj))
               else Ok players_obj
           end
  end.

(** The primary key of a queued object, read after the commit. *)
Definition key (handle : option nat) (ids : list Z) : ST Session Z :=
  match handle with
  | Some h => lift (index ids h)
  | None => raise AttributeError
  end.

Definition add_game (game : ParsedGame.t) : ST Session Z :=
  let moves_string := Str.join "," (ParsedGame.moves game) in
  let db_game :=
    Game.mk 0 (ParsedGame.event game) (ParsedGame.site game)
            (ParsedGame.date game) (ParsedGame.round game)
            (ParsedGame.result game) (ParsedGame.whiteelo game)
            (ParsedGame.blackelo game) (VStr moves_string)
            (ParsedGame.eco game) [] ∅ in
  h <- db.add (NewGame db_game) ;;
  ids <- db.commit ;;
  key (Some h) ids.

Definition add_players (white black : string) : ST Session id_dict :=
  white_parsed <- lift (parse_player_name white) ;;
  black_parsed <- lift (parse_player_name black) ;;
  white_id <- player_in_db (Parsed white_parsed) ;;
  black_id <- player_in_db (Parsed black_parsed) ;;
  db_white <- (if not_ white_id
               then h <- db.add (NewPlayer (first_name white_parsed)
                                           (last_name white_parsed)) ;;
                    ret (Some h)
               else ret None) ;;
  db_black <- (if not_ black_id
               then h <- db.add (NewPlayer (first_name black_parsed)
                                           (last_name black_parsed)) ;;
                    ret (Some h)
               else ret None) ;;
  ids <- db.commit ;;
  white_id <- (if not_ white_id then key db_white ids
               else ret (default 0%Z white_id)) ;;
  black_id <- (if not_ black_id then key db_black ids
               else ret (default 0%Z black_id)) ;;
  ret (mk_ids white_id black_id).

Definition add_pairings (game_id : Z) (player_ids : id_dict) : ST Session unit :=
  db.add (NewPairing game_id (black player_ids) "black") ;;
  db.add (NewPairing game_id (white player_ids) "white") ;;
  db.commit ;;
  ret tt.

(** The body of the loop of [add_games]. *)
Definition add_one (game : ParsedGame.t) : ST Session unit :=
  db_player_ids <- add_players (ParsedGame.white game) (ParsedGame.black game) ;;
  db_game_id <- add_game game ;;
  add_pairings db_game_id db_player_ids ;;
  db.expunge_all.

Fixpoint for_each {A} (l : list A) (body : A -> ST Session unit) : ST Session unit :=
  match l with
  | [] => ret tt
  | x :: l' => body x ;; for_each l' body
  end.

Definition add_games (self : t) : ST Session unit :=
  match parsed_games self with
  | None | Some [] => ret tt
  | Some games => for_each games add_one
  end.

Section Format.
(** [Player.full_name], the display form of a player's name. *)
Variable full_name : Player.t -> string.
(** [pgn.dumps], the writer of the textual codec. *)
Variable dumps : Game.t -> string.
(** The rows of the Pairing table. *)
Variable pairing_rows : list Pairing.t.

(** [game.<name>] for an attribute that is not a column. *)
Definition getattr (name : string) : ST Game.t string :=
  game <- get ;;
  match Game.attrs game !! name with
  | Some v => ret v
  | None => raise AttributeError
  end.

Definition setattr (name value : string) : ST Game.t unit :=
  modify (Game.set_attr name value).

(** The state is the [game] object, which the method assigns to.  The
    closing [db.session.expunge_all()] detaches the fetched objects; it
    changes neither the attributes of [game] nor the tables and is left
    out. *)
Definition format_game (return_type : string) : ST Game.t formatted :=
  game <- get ;;
  players <- lift (unparse_players_with_color pairing_rows
                     (Game.players game) (Game.id game)) ;;
  white <- lift (getitem players "white") ;;
  setattr "white" (full_name white) ;;
  black <- lift (getitem players "black") ;;
  setattr "black" (full_name black) ;;
  if String.eqb return_type "dict" || String.eqb return_type "json"
  then
    game <- get ;;
    let game_dict : gmap string value := ∅ in
    let game_dict := <["event" := VStr (Game.event game)]> game_dict in
    let game_dict := <["site" := VStr (Game.site game)]> game_dict in
    let game_dict := <["date" := VStr (Game.date game)]> game_dict in
    let game_dict := <["round" := VStr (Game.match_round game)]> game_dict in
    let game_dict := <["white_elo" := VStr (Game.white_elo game)]> game_dict in
    let game_dict := <["black_elo" := VStr (Game.black_elo game)]> game_dict in
    w <- getattr "white" ;;
    let game_dict := <["white" := VStr w]> game_dict in
    b <- getattr "black" ;;
    let game_dict := <["black" := VStr b]> game_dict in
    let game_dict := <["moves" := Game.moves game]> game_dict in
    let game_dict := <["eco" := VStr (Game.eco game)]> game_dict in
    ret (Dict game_dict)
  else
    game <- get ;;
    moves <- match Game.moves game with
             | VStr s => lift (Str.split "," s)
             | VList _ => raise AttributeError
             end ;;
    modify (Game.set_moves (VList moves)) ;;
    setattr "round" (Game.match_round game) ;;
    setattr "whiteelo" (Game.white_elo game) ;;
    setattr "blackelo" (Game.black_elo game) ;;
    setattr "annotator" "" ;;
    setattr "plycount" "" ;;
    setattr "timecontrol" "" ;;
    setattr "time" "" ;;
    setattr "termination" "" ;;
    setattr "mode" "" ;;
    setattr "fen" "" ;;
    game <- get ;;
    ret (Pgn (dumps game)).

Definition game_match (game : Game.t) (request_args : gmap string string) : res bool :=
  name_ok ←
    match request_args !! "name" with
    | Some name =>
        players ← unparse_players_with_color pairing_rows
                    (Game.players game) (Game.id game);
        white ← getitem players "white";
        if negb (Str.contains name (Str.lower (full_name white)))
        then black ← getitem players "black";
             Ok (Str.contains name (Str.lower (full_name black)))
        else Ok true
    | None => Ok true
    end;
  if negb name_ok then Ok false
  else match request_args !! "eco" with
       | Some eco =>
           if negb (String.eqb (Str.lower eco) (Str.lower (Game.eco game)))
           then Ok false
           else Ok true
       | None => Ok true
       end.
(** [unparse_game]; [query_get] is [models.Game.query.get], which gives
    [None] when no row has the key.  A missing or zero [game_id] returns
    [None] (after a diagnostic); formatting [None] fails on [game.players]. *)
Definition unparse_game (query_get : Z -> option Game.t) (self : t)
           (return_type : string) : res (option formatted) :=
  if not_ (game_id self) then Ok None
  else match query_get (default 0%Z (game_id self)) with
       | None => Raise AttributeError
       | Some game =>
           out ← fst (format_game return_type game);
           Ok (Some out)
       end.

(** [any(request_args)]: some key of the dictionary is a non-empty string. *)
Definition any_key (request_args : gmap string string) : bool :=
  existsb (fun kv => negb (String.eqb (fst kv) "")) (map_to_list request_args).

(** [list(filter(lambda g: self.__game_match(g, request_args), games))]:
    the first exception of the predicate ends the filtering. *)
Fixpoint filter_match (request_args : gmap string string) (games : list Game.t)
  : res (list Game.t) :=
  match games with
  | [] => Ok []
  | g :: rest =>
      keep ← game_match g request_args;
      kept ← filter_match request_args rest;
      Ok (if keep : bool then g :: kept else kept)
  end.

(** [get_games]; [all_games] is the result of [models.Game.query.all()]. *)
Definition get_games (all_games : list Game.t)
           (request_args : gmap string string) : res (list Game.t) :=
  if any_key request_args then filter_match request_args all_games
  else Ok all_games.
End Format.

End GameParser.

(** ** The behaviour the specification describes

    These definitions follow the wording of the specification; the
    theorems below compare them with the methods of [GameParser]. *)

Module Spec.

(** The segment before the first comma (all of [s] without a comma). *)
Fixpoint before_comma (s : string) : string :=
  match s with
  | "" => ""
  | String c s' => if Ascii.eqb c "," then "" else String c (before_comma s')
  end.

(** The text that follows the first comma, if there is a comma. *)
Fixpoint after_comma (s : string) : option string :=
  match s with
  | "" => None
  | String c s' => if Ascii.eqb c "," then Some s' else after_comma s'
  end.

(** Name parsing that splits on the first comma only. *)
Definition split_on_first_comma (s : string) : GameParser.name_dict :=
  GameParser.mk_name
    (match after_comma s with
     | Some rest => Str.strip rest
     | None => ""
     end)
    (Str.strip (before_comma s)).

(** The newline character: the line feed, code point 10, written here
    on its own and not taken from the parser. *)
Definition line_feed : ascii := "010"%char.

(** Every maximal run of whitespace replaced by one newline; [in_run]
    tells that the previous character was whitespace. *)
Fixpoint runs_to_newline (in_run : bool) (s : string) : string :=
  match s with
  | "" => ""
  | String c s' =>
      if Str.isspace c
      then if in_run then runs_to_newline true s'
           else String line_feed (runs_to_newline true s')
      else String c (runs_to_newline false s')
  end.

(** Some character of [s] is whitespace other than the newline (a space
    or a tab, for instance). *)
Fixpoint other_whitespace (s : string) : bool :=
  match s with
  | "" => false
  | String c s' =>
      Str.isspace c && negb (Ascii.eqb c line_feed) || other_whitespace s'
  end.

(** Leading and trailing whitespace dropped, inner runs of whitespace
    turned into single newlines. *)
Definition normalize (s : string) : string :=
  runs_to_newline false (Str.strip s).

(** [needle] is a substring of [hay] up to letter case. *)
Definition ci_substring (needle hay : string) : bool :=
  Str.contains (Str.lower needle) (Str.lower hay).

(** Modelled from the spec: [Player.full_name] is not among the
    sources; the display form of a name is "First Last". *)
Definition full_name (p : Player.t) : string :=
  Player.first_name p ++ " " ++ Player.last_name p.

(** A move token without the delimiter: [',' not in m]. *)
Definition comma_free (m : string) : Prop := Str.contains "," m = false.

(** The mapping [{white: w, black: b}]. *)
Definition colored (w b : Player.t) : gmap string Player.t :=
  <["white" := w]> (<["black" := b]> ∅).

End Spec.

(** ** The objects format_game leaves behind *)

Section Outcomes.
Variable full_name : Player.t -> string.

(** The game once the display names have been assigned. *)
Definition named (W B : Player.t) (g : Game.t) : Game.t :=
  Game.set_attr "black" (full_name B) (Game.set_attr "white" (full_name W) g).

(** The dictionary built for the return types dict and json. *)
Definition game_dict (W B : Player.t) (g : Game.t) : gmap string value :=
  <["eco" := VStr (Game.eco g)]>
  (<["moves" := Game.moves g]>
  (<["black" := VStr (full_name B)]>
  (<["white" := VStr (full_name W)]>
  (<["black_elo" := VStr (Game.black_elo g)]>
  (<["white_elo" := VStr (Game.white_elo g)]>
  (<["round" := VStr (Game.match_round g)]>
  (<["date" := VStr (Game.date g)]>
  (<["site" := VStr (Game.site g)]>
  (<["event" := VStr (Game.event g)]> ∅))))))))).

(** The game as handed to the writer for any other return type. *)
Definition pgn_ready (W B : Player.t) (moves : list string) (g : Game.t) : Game.t :=
  Game.set_attr "fen" ""
  (Game.set_attr "mode" ""
  (Game.set_attr "termination" ""
  (Game.set_attr "time" ""
  (Game.set_attr "timecontrol" ""
  (Game.set_attr "plycount" ""
  (Game.set_attr "annotator" ""
  (Game.set_attr "blackelo" (Game.black_elo g)
  (Game.set_attr "whiteelo" (Game.white_elo g)
  (Game.set_attr "round" (Game.match_round g)
  (Game.set_moves (VList moves) (named W B g))))))))))).

End Outcomes.

(** ** Sample data *)

(** A stored game with its two players and its pairings. *)
Definition sample_game : Game.t :=
  Game.mk 1 "World Championship" "Moscow" "1985.09.03" "1" "1-0" "2720" "2700"
          (VStr "e4,e5,Nf3") "C20"
          [Player.mk 1 "Anatoly" "Karpov"; Player.mk 2 "Garry" "Kasparov"] ∅.

Definition sample_pairings : list Pairing.t :=
  [Pairing.mk 1 1 2 "black"; Pairing.mk 2 1 1 "white"].


(** ** Outcomes of storage computations *)

(** [wp m Q s]: running [m] from [s] ends in a result and a state that
    satisfy [Q]. *)
Definition wp {S A} (m : ST S A) (Q : res A -> S -> Prop) (s : S) : Prop :=
  Q (fst (m s)) (snd (m s)).

(** The fuse after one more successful storage operation. *)
Definition tick (s : Session) : Session :=
  mkSession (committed s) (pending s)
            (match fuse s with Some n => Some (Nat.pred n) | None => None end).

(** Pairing rows written two at a time: black, then white, of one game. *)
Inductive in_pairs : list Pairing.t -> Prop :=
  | in_pairs_nil : in_pairs []
  | in_pairs_cons (i j gid b w : Z) (l : list Pairing.t) :
      in_pairs l ->
      in_pairs (Pairing.mk i gid b "black" :: Pairing.mk j gid w "white" :: l).

(** The contract of a storage computation started with an empty queue in
    session [s]: it returns with an empty queue and a store satisfying
    [ok], or raises [StorageFailure] because the fuse ran out, leaving a
    store satisfying [ko]; without a fuse it returns. *)
Definition outcome {A} (s : Session) (ok : A -> Store -> Prop) (ko : Store -> Prop)
           (r : res A) (s' : Session) : Prop :=
  match r with
  | Ok a => pending s' = [] /\ (fuse s = None -> fuse s' = None) /\ ok a (committed s')
  | Raise e => e = StorageFailure /\ fuse s <> None /\ fuse s' = Some 0
               /\ ko (committed s')
  end.

(** The primary key [player_in_db] finds for a parsed name in a store. *)
Definition found_id (d : GameParser.name_dict) (st : Store) : option Z :=
  Player.id <$> head (db.player_filter_by (GameParser.first_name d)
                                          (GameParser.last_name d) st).

(** The Player objects [add_players] queues for two parsed names. *)
Definition new_players (w b : GameParser.name_dict) (st : Store) : list pending_row :=
  (if not_ (found_id w st)
   then [NewPlayer (GameParser.first_name w) (GameParser.last_name w)] else [])
  ++ (if not_ (found_id b st)
      then [NewPlayer (GameParser.first_name b) (GameParser.last_name b)] else []).

(** The name [parse_player_name] returns. *)
Definition parsed_name (s : string) : GameParser.name_dict :=
  GameParser.mk_name
    (match Spec.after_comma s with
     | Some rest => Str.strip (Spec.before_comma rest)
     | None => ""
     end)
    (Str.strip (Spec.before_comma s)).

(** The Game row [add_game] queues. *)
Definition new_game (game : ParsedGame.t) : Game.t :=
  Game.mk 0 (ParsedGame.event game) (ParsedGame.site game)
          (ParsedGame.date game) (ParsedGame.round game)
          (ParsedGame.result game) (ParsedGame.whiteelo game)
          (ParsedGame.blackelo game)
          (VStr (Str.join "," (ParsedGame.moves game)))
          (ParsedGame.eco game) [] ∅.

(** The dictionary of primary keys [add_players] returns. *)
Definition player_ids (w b : GameParser.name_dict) (st : Store) : GameParser.id_dict :=
  let ids := fst (flush (new_players w b st) st) in
  let wid := found_id w st in
  let bid := found_id b st in
  GameParser.mk_ids
    (if not_ wid then nth 0 ids 0%Z else default 0%Z wid)
    (if not_ bid then nth (if not_ wid then 1 else 0) ids 0%Z else default 0%Z bid).

(** The store after each of the three commits made for one game. *)
Definition after_players (game : ParsedGame.t) (st : Store) : Store :=
  snd (flush (new_players (parsed_name (ParsedGame.white game))
                          (parsed_name (ParsedGame.black game)) st) st).

Definition after_game (game : ParsedGame.t) (st : Store) : Store :=
  snd (insert_row (NewGame (new_game game)) (after_players game st)).

Definition after_pairings (game : ParsedGame.t) (st : Store) : Store :=
  let ids := player_ids (parsed_name (ParsedGame.white game))
                        (parsed_name (ParsedGame.black game)) st in
  let gid := fst (insert_row (NewGame (new_game game)) (after_players game st)) in
  snd (flush [NewPairing gid (GameParser.black ids) "black";
              NewPairing gid (GameParser.white ids) "white"]
             (after_game game st)).

(** The store after a whole batch. *)
Definition after_batch (games : list ParsedGame.t) (st : Store) : Store :=
  fold_left (fun st game => after_pairings game st) games st.

(** The stores in which a batch can be left by a storage failure: some
    games are done and the next one is cut short before its first, second
    or third commit. *)
Definition cut_short (games : list ParsedGame.t) (st st' : Store) : Prop :=
  exists (done : list ParsedGame.t) (game : ParsedGame.t) (rest : list ParsedGame.t),
    games = done ++ game :: rest
    /\ (st' = after_batch done st
        \/ st' = after_players game (after_batch done st)
        \/ st' = after_game game (after_batch done st)).

(** A second sample: a parsed game, a parser holding it, and an empty
    store whose fifth storage operation fails. *)
Definition sample_parsed : ParsedGame.t :=
  ParsedGame.mk "World Championship" "Moscow" "1985.09.03" "1" "1-0"
                "2720" "2700" "Karpov, Anatoly" "Kasparov, Garry"
                ["e4"; "e5"; "Nf3"] "C20".

Definition sample_parser (games : list ParsedGame.t) : GameParser.t :=
  GameParser.mk None None (Some games) false.

Definition empty_session (fuse : option nat) : Session :=
  mkSession (mkStore [] [] []) [] fuse.

(** A parsed game one of whose move tokens contains the delimiter, and
    one without moves. *)
Definition comma_parsed : ParsedGame.t :=
  ParsedGame.mk "World Championship" "Moscow" "1985.09.03" "1" "1-0"
                "2720" "2700" "Karpov, Anatoly" "Kasparov, Garry"
                ["e4,e5"; "Nf3"] "C20".

Definition empty_parsed : ParsedGame.t :=
  ParsedGame.mk "World Championship" "Moscow" "1985.09.03" "1" "1-0"
                "2720" "2700" "Karpov, Anatoly" "Kasparov, Garry"
                [] "C20".

(** Ingests one game into an empty store, fetches the stored row with its
    players and formats it as text; the result is the outcome of
    [format_game] and the moves the game object then holds. *)
Definition ingest_and_format (game : ParsedGame.t) : res formatted * option value :=
  let s' := snd (GameParser.add_games (sample_parser [game]) (empty_session None)) in
  match game_rows (committed s') with
  | [row] =>
      let out := GameParser.format_game Spec.full_name (fun _ => "")
                   (pairing_rows (committed s')) "pgn"
                   (Game.set_players (player_rows (committed s')) row) in
      (fst out, Some (Game.moves (snd out)))
  | _ => (Raise KeyError, None)
  end.

(** A parsed game naming the same player on both sides. *)
Definition mirror_parsed : ParsedGame.t :=
  ParsedGame.mk "Casual" "Home" "2020.01.01" "1" "1/2-1/2" "1500" "1500"
                "Smith, John" "Smith, John" ["e4"; "e5"] "C20".

(** ** The identity of players *)

(** The (first name, last name) pair that identifies a player. *)
Definition name_of (p : Player.t) : string * string :=
  (Player.first_name p, Player.last_name p).

(** No two Player rows share a name, and primary keys are positive. *)
Definition unique_names (st : Store) : Prop :=
  NoDup (map name_of (player_rows st))
  /\ Forall (fun p => (0 < Player.id p)%Z) (player_rows st).

(** The two sides of a parsed game name different players. *)
Definition distinct_sides (game : ParsedGame.t) : Prop :=
  parsed_name (ParsedGame.white game) <> parsed_name (ParsedGame.black game).

(** ** Further definitions used by the properties of the other methods *)

(** Every occurrence of the character [c] replaced by a newline. *)
Fixpoint newline_for (c : ascii) (s : string) : string :=
  match s with
  | "" => ""
  | String a s' =>
      if Ascii.eqb a c then GameParser.nl ++ newline_for c s'
      else String a (newline_for c s')
  end.

(** [st'] holds the rows of [st], unchanged and in the same order,
    followed by new ones. *)
Definition extends (st st' : Store) : Prop :=
  (exists k, player_rows st' = player_rows st ++ k)
  /\ (exists k, game_rows st' = game_rows st ++ k)
  /\ (exists k, pairing_rows st' = pairing_rows st ++ k).

(** The primary key of the first of [rows] that carries the name [d]. *)
Definition found_in (d : GameParser.name_dict) (rows : list Player.t) : option Z :=
  Player.id <$> head (filter (fun p => Player.first_name p = GameParser.first_name d
                                       ∧ Player.last_name p = GameParser.last_name d)
                             rows).

(** Primary keys of players are distinct, and every pairing refers to a
    game that is in the Game table. *)
Definition keyed (st : Store) : Prop :=
  NoDup (map Player.id (player_rows st))
  /\ Forall (fun p => In (Pairing.game_id p) (map Game.id (game_rows st)))
            (pairing_rows st).

(** A store as ingestion leaves it: one row per name, positive and
    distinct player keys, pairings of existing games only. *)
Definition consistent (st : Store) : Prop := unique_names st /\ keyed st.

(** In the store [st] the parsed game [game] is kept as the game row
    [row], and its pairings name the player row [W] as white and the player
    row [B] as black, which carry the names parsed from the game. *)
Definition linked (game : ParsedGame.t) (st : Store)
           (row : Game.t) (W B : Player.t) : Prop :=
  In row (game_rows st)
  /\ Game.set_id 0 row = new_game game
  /\ In W (player_rows st) /\ In B (player_rows st)
  /\ found_in (parsed_name (ParsedGame.white game)) (player_rows st) = Some (Player.id W)
  /\ found_in (parsed_name (ParsedGame.black game)) (player_rows st) = Some (Player.id B)
  /\ name_of W = (GameParser.first_name (parsed_name (ParsedGame.white game)),
                  GameParser.last_name (parsed_name (ParsedGame.white game)))
  /\ name_of B = (GameParser.first_name (parsed_name (ParsedGame.black game)),
                  GameParser.last_name (parsed_name (ParsedGame.black game)))
  /\ Player.id W <> Player.id B
  /\ (exists r, db.pairing_first (pairing_rows st) (Player.id W) (Game.id row) = Some r
                /\ Pairing.color r = "white")
  /\ (exists r, db.pairing_first (pairing_rows st) (Player.id B) (Game.id row) = Some r
                /\ Pairing.color r = "black").

(** The dictionary expected for a parsed game whose white and black
    players are stored as the rows [W] and [B]. *)
Definition parsed_dict (full_name : Player.t -> string) (W B : Player.t)
           (game : ParsedGame.t) : gmap string value :=
  <["eco" := VStr (ParsedGame.eco game)]>
  (<["moves" := VStr (Str.join "," (ParsedGame.moves game))]>
  (<["black" := VStr (full_name B)]>
  (<["white" := VStr (full_name W)]>
  (<["black_elo" := VStr (ParsedGame.blackelo game)]>
  (<["white_elo" := VStr (ParsedGame.whiteelo game)]>
  (<["round" := VStr (ParsedGame.round game)]>
  (<["date" := VStr (ParsedGame.date game)]>
  (<["site" := VStr (ParsedGame.site game)]>
  (<["event" := VStr (ParsedGame.event game)]> ∅))))))))).

(** * Properties *)

Import GameParser.

(** *** The string methods on examples *)

Example split_commas : Str.split "," "Smith, John, Jr" = Ok ["Smith"; " John"; " Jr"].
Proof. reflexivity. Qed.
Example split_empty : Str.split "," "" = Ok [""].
Proof. reflexivity. Qed.
Example split_long_sep : Str.split "ab" "xabab" = Ok ["x"; ""; ""].
Proof. reflexivity. Qed.
Example split_overlap : Str.split "--" "a--b---c" = Ok ["a"; "b"; "-c"].
Proof. reflexivity. Qed.
Example split_no_sep : Str.split "" "abc" = Raise ValueError.
Proof. reflexivity. Qed.
Example split_ws_ex : Str.split_ws " a  b c " = ["a"; "b"; "c"].
Proof. reflexivity. Qed.
Example strip_ex : Str.strip "  John Q " = "John Q".
Proof. reflexivity. Qed.
Example contains_ex : Str.contains "kasp" (Str.lower "Garry Kasparov") = true.
Proof. reflexivity. Qed.


(** *** Splitting on commas *)

Lemma append_nil_r (s : string) : (s ++ "")%string = s.
Proof.
  induction s as [|c s IH]; [reflexivity |].
  change (String c (s ++ "")%string = String c s). now rewrite IH.
Qed.

Lemma append_assoc (a b c : string) : ((a ++ b) ++ c = a ++ b ++ c)%string.
Proof.
  induction a as [|x a IH]; [reflexivity |].
  change (String x ((a ++ b) ++ c) = String x (a ++ b ++ c))%string.
  now rewrite IH.
Qed.

Lemma prefix_comma (c : ascii) (s : string) :
  String.prefix "," (String c s) = Ascii.eqb c ",".
Proof.
  cbn [String.prefix]. destruct (ascii_dec "," c) as [<- | Hne].
  - now destruct s.
  - symmetry. apply Ascii.eqb_neq. congruence.
Qed.

(** [split(',')] cuts at the first comma and carries on with the rest. *)
Lemma split_scan_comma (s : string) :
  Str.split_scan "," 0 s =
  Spec.before_comma s ::
  match Spec.after_comma s with
  | Some rest => Str.split_scan "," 0 rest
  | None => []
  end.
Proof.
  induction s as [|c s IH]; [reflexivity |].
  cbn [Str.split_scan]. rewrite prefix_comma. cbn [Spec.before_comma Spec.after_comma].
  destruct (Ascii.eqb c ","); [reflexivity |].
  rewrite IH. reflexivity.
Qed.

(** *** Comma-free tokens *)


Lemma comma_free_cons (c : ascii) (m : string) :
  Spec.comma_free (String c m) -> Ascii.eqb c "," = false /\ Spec.comma_free m.
Proof.
  unfold Spec.comma_free. cbn [Str.contains]. rewrite prefix_comma.
  intros H. apply orb_false_elim in H. exact H.
Qed.

Lemma before_comma_append (t rest : string) :
  Spec.comma_free t -> Spec.before_comma (t ++ "," ++ rest) = t.
Proof.
  induction t as [|c t IH]; intros H; [reflexivity |].
  apply comma_free_cons in H as [Hc Ht].
  change (Spec.before_comma (String c (t ++ "," ++ rest)) = String c t).
  cbn [Spec.before_comma]. rewrite Hc, (IH Ht). reflexivity.
Qed.

Lemma after_comma_append (t rest : string) :
  Spec.comma_free t -> Spec.after_comma (t ++ "," ++ rest) = Some rest.
Proof.
  induction t as [|c t IH]; intros H; [reflexivity |].
  apply comma_free_cons in H as [Hc Ht].
  change (Spec.after_comma (String c (t ++ "," ++ rest)) = Some rest).
  cbn [Spec.after_comma]. rewrite Hc. exact (IH Ht).
Qed.

Lemma before_comma_free (t : string) : Spec.comma_free t -> Spec.before_comma t = t.
Proof.
  induction t as [|c t IH]; intros H; [reflexivity |].
  apply comma_free_cons in H as [Hc Ht].
  cbn [Spec.before_comma]. rewrite Hc, (IH Ht). reflexivity.
Qed.

Lemma after_comma_free (t : string) : Spec.comma_free t -> Spec.after_comma t = None.
Proof.
  induction t as [|c t IH]; intros H; [reflexivity |].
  apply comma_free_cons in H as [Hc Ht].
  cbn [Spec.after_comma]. rewrite Hc. exact (IH Ht).
Qed.

(** No string makes name parsing fail. *)
Lemma parse_player_name_eq (s : string) :
  parse_player_name s = Ok (parsed_name s).
Proof.
  unfold parse_player_name, parsed_name, Str.split. cbn [mbind res_bind].
  rewrite split_scan_comma.
  destruct (Spec.after_comma s) as [rest|]; [|reflexivity].
  rewrite (split_scan_comma rest). reflexivity.
Qed.

(** C4, as the code has it: name parsing splits on every comma.  The
    segment before the first comma, trimmed, is last_name; the text after
    the first comma, up to the next comma if there is one, trimmed, is
    first_name, which is empty when there is no comma; no string is an
    error.  With at most one comma this is the split on the first comma. *)
Theorem parse_player_name_total (s : string) :
  parse_player_name s =
  Ok (mk_name
        (match Spec.after_comma s with
         | Some rest => Str.strip (Spec.before_comma rest)
         | None => ""
         end)
        (Str.strip (Spec.before_comma s)))
  /\ (match Spec.after_comma s with
      | Some rest => Spec.comma_free rest
      | None => True
      end ->
      parse_player_name s = Ok (Spec.split_on_first_comma s)).
Proof.
  rewrite parse_player_name_eq. split; [reflexivity |].
  unfold parsed_name, Spec.split_on_first_comma.
  destruct (Spec.after_comma s) as [rest|]; [|reflexivity].
  intros Hfree. now rewrite (before_comma_free rest Hfree).
Qed.

(** Whitespace around either segment is trimmed, a middle name is kept. *)
Lemma parse_player_name_total_witness :
  parse_player_name " Smith , John Q " = Ok (mk_name "John Q" "Smith").
Proof. exact (proj1 (parse_player_name_total " Smith , John Q ")). Defined.

(** C4, counterexample: with a second comma, first_name is not the whole
    text after the first comma. *)
Lemma parse_player_name_not_first_comma :
  parse_player_name "Smith, John, Jr" <> Ok (Spec.split_on_first_comma "Smith, John, Jr").
Proof. vm_compute. discriminate. Qed.

(** Splitting a joined list of comma-free tokens gives the tokens back. *)
Lemma split_scan_join (l : list string) :
  l <> [] -> Forall Spec.comma_free l ->
  Str.split_scan "," 0 (Str.join "," l) = l.
Proof.
  induction l as [|x l IH]; [congruence |].
  intros _ Hall. inversion Hall as [|? ? Hx Hl]; subst.
  destruct l as [|y l].
  - cbn [Str.join]. rewrite split_scan_comma.
    now rewrite (before_comma_free x Hx), (after_comma_free x Hx).
  - change (Str.join "," (x :: y :: l)) with (x ++ "," ++ Str.join "," (y :: l))%string.
    rewrite split_scan_comma.
    rewrite (before_comma_append x _ Hx), (after_comma_append x _ Hx).
    f_equal. apply IH; [discriminate | assumption].
Qed.

(** *** Whitespace *)

Lemma rstrip_cons (c : ascii) (s : string) :
  Str.rstrip (String c s) =
  match Str.rstrip s with
  | "" => if Str.isspace c then "" else String c ""
  | r => String c r
  end.
Proof. reflexivity. Qed.

Lemma rstrip_cons_nonspace (c : ascii) (s : string) :
  Str.isspace c = false -> Str.rstrip (String c s) = String c (Str.rstrip s).
Proof. intros H. rewrite rstrip_cons, H. now destruct (Str.rstrip s). Qed.

(** A string of whitespace only has no field. *)
Lemma split_ws_blank (s : string) :
  Str.rstrip s = "" -> Str.split_ws_scan "" s = [].
Proof.
  induction s as [|c s IH]; [reflexivity |].
  rewrite rstrip_cons. cbn [Str.split_ws_scan].
  destruct (Str.rstrip s) eqn:Hr; [|discriminate].
  destruct (Str.isspace c); [intros _; now apply IH | discriminate].
Qed.

Lemma split_ws_scan_nonempty (tok : string) (s : string) :
  tok <> "" -> Str.split_ws_scan tok s <> [].
Proof.
  revert tok. induction s as [|c s IH]; intros tok Htok; cbn [Str.split_ws_scan].
  - destruct tok; [congruence | discriminate].
  - destruct (Str.isspace c).
    + destruct tok; [congruence | discriminate].
    + apply IH. destruct tok; discriminate.
Qed.

Lemma split_ws_not_blank (s : string) :
  Str.rstrip s <> "" -> Str.split_ws_scan "" s <> [].
Proof.
  induction s as [|c s IH]; [intros H; now elim H |].
  rewrite rstrip_cons. cbn [Str.split_ws_scan].
  destruct (Str.isspace c) eqn:Hc.
  - destruct (Str.rstrip s) eqn:Hr; [intros H; now elim H |].
    intros _. apply IH. discriminate.
  - intros _. apply split_ws_scan_nonempty. discriminate.
Qed.

Lemma join_cons (sep x : string) (l : list string) :
  l <> [] -> Str.join sep (x :: l) = (x ++ sep ++ Str.join sep l)%string.
Proof. destruct l; [congruence | reflexivity]. Qed.

(** The fields read by [split()], joined by newlines, spell the input
    with its trailing whitespace dropped and its runs of whitespace
    collapsed. *)
Lemma join_split_ws_scan (s : string) :
  (forall tok, tok <> "" ->
     Str.join nl (Str.split_ws_scan tok s)
     = (tok ++ Spec.runs_to_newline false (Str.rstrip s))%string)
  /\ Str.join nl (Str.split_ws_scan "" s) = Spec.runs_to_newline true (Str.rstrip s).
Proof.
  induction s as [|c s [IH1 IH2]].
  - split; [|reflexivity]. intros tok Htok.
    destruct tok; [congruence |]. cbn [Str.split_ws_scan Str.join Str.rstrip Spec.runs_to_newline].
    now rewrite append_nil_r.
  - destruct (Str.isspace c) eqn:Hc.
    + assert (Hblank : Str.rstrip s = "" -> Str.rstrip (String c s) = "").
      { intros H. now rewrite rstrip_cons, H, Hc. }
      assert (Hcons : Str.rstrip s <> "" -> Str.rstrip (String c s) = String c (Str.rstrip s)).
      { intros H. rewrite rstrip_cons. destruct (Str.rstrip s); [congruence | reflexivity]. }
      split.
      * intros tok Htok. cbn [Str.split_ws_scan]. rewrite Hc.
        destruct tok as [|t0 tok]; [congruence |].
        destruct (string_dec (Str.rstrip s) "") as [Hr | Hr].
        -- rewrite (Hblank Hr), (split_ws_blank s Hr).
           cbn [Str.join Spec.runs_to_newline]. now rewrite append_nil_r.
        -- rewrite (Hcons Hr), join_cons by now apply split_ws_not_blank.
           rewrite IH2. cbn [Spec.runs_to_newline]. rewrite Hc. reflexivity.
      * cbn [Str.split_ws_scan]. rewrite Hc, IH2.
        destruct (string_dec (Str.rstrip s) "") as [Hr | Hr].
        -- now rewrite (Hblank Hr), Hr.
        -- rewrite (Hcons Hr). cbn [Spec.runs_to_newline]. now rewrite Hc.
    + rewrite (rstrip_cons_nonspace c s Hc).
      assert (Hstep : forall tok,
                 Str.join nl (Str.split_ws_scan tok (String c s))
                 = (tok ++ String c (Spec.runs_to_newline false (Str.rstrip s)))%string).
      { intros tok. cbn [Str.split_ws_scan]. rewrite Hc.
        rewrite IH1 by (destruct tok; discriminate).
        now rewrite append_assoc. }
      split.
      * intros tok _. rewrite Hstep. cbn [Spec.runs_to_newline]. now rewrite Hc.
      * rewrite Hstep. cbn [Spec.runs_to_newline]. now rewrite Hc.
Qed.

Lemma runs_to_newline_lstrip (s : string) :
  Spec.runs_to_newline false (Str.lstrip s) = Spec.runs_to_newline true s.
Proof.
  induction s as [|c s IH]; [reflexivity |].
  cbn [Str.lstrip Spec.runs_to_newline].
  destruct (Str.isspace c) eqn:Hc; [exact IH |].
  cbn [Spec.runs_to_newline]. now rewrite Hc.
Qed.

Lemma join_split_ws (s : string) :
  Str.join nl (Str.split_ws s) = Spec.normalize s.
Proof.
  unfold Str.split_ws, Spec.normalize, Str.strip.
  rewrite runs_to_newline_lstrip. apply join_split_ws_scan.
Qed.

(** *** Colour resolution *)

Lemma colored_insert (w b : Player.t) :
  <["black" := b]> (<["white" := w]> (∅ : gmap string Player.t)) = Spec.colored w b.
Proof. unfold Spec.colored. apply insert_insert_ne. discriminate. Qed.

(** What colour resolution returns once both pairings are found. *)
Lemma unparse_players_with_color_found (rows : list Pairing.t)
      (p0 p1 : Player.t) (gid : Z) (r1 r2 : Pairing.t) :
  db.pairing_first rows (Player.id p0) gid = Some r1 ->
  db.pairing_first rows (Player.id p1) gid = Some r2 ->
  unparse_players_with_color rows [p0; p1] gid =
  Ok (if String.eqb (Pairing.color r1) "white" then Spec.colored p0 p1
      else if String.eqb (Pairing.color r2) "white" then Spec.colored p1 p0
      else ∅).
Proof.
  intros H1 H2. unfold unparse_players_with_color, index.
  cbn [lookup list_lookup mbind res_bind]. rewrite H1, H2.
  destruct (String.eqb (Pairing.color r1) "white").
  - now rewrite colored_insert.
  - destruct (String.eqb (Pairing.color r2) "white"); [|reflexivity].
    now rewrite colored_insert.
Qed.

(** C7: when the pairing found for player [A] is white and the one found
    for player [B] is black, colour resolution returns
    [{white: A, black: B}] whichever of the two players comes first. *)
Theorem color_resolution_either_order (rows : list Pairing.t)
        (A B : Player.t) (gid : Z) (rA rB : Pairing.t) :
  db.pairing_first rows (Player.id A) gid = Some rA ->
  Pairing.color rA = "white" ->
  db.pairing_first rows (Player.id B) gid = Some rB ->
  Pairing.color rB = "black" ->
  unparse_players_with_color rows [A; B] gid = Ok (Spec.colored A B)
  /\ unparse_players_with_color rows [B; A] gid = Ok (Spec.colored A B).
Proof.
  intros HA HwA HB HbB. split.
  - rewrite (unparse_players_with_color_found rows A B gid rA rB HA HB).
    now rewrite HwA.
  - rewrite (unparse_players_with_color_found rows B A gid rB rA HB HA).
    now rewrite HbB, HwA.
Qed.

Lemma color_resolution_either_order_witness :
  let A := Player.mk 1 "Anatoly" "Karpov" in
  let B := Player.mk 2 "Garry" "Kasparov" in
  let rows := [Pairing.mk 1 7 2 "black"; Pairing.mk 2 7 1 "white"] in
  unparse_players_with_color rows [A; B] 7 = Ok (Spec.colored A B)
  /\ unparse_players_with_color rows [B; A] 7 = Ok (Spec.colored A B).
Proof.
  intros A B rows.
  apply (color_resolution_either_order rows A B 7
           (Pairing.mk 2 7 1 "white") (Pairing.mk 1 7 2 "black"));
    reflexivity.
Defined.

(** C2, as the code has it: when both pairings are found but do not
    carry one white and one black, colour resolution raises no error.  It
    returns [{white: players[0], black: players[1]}] if the first pairing
    is white, else [{white: players[1], black: players[0]}] if the second
    is white, else the empty mapping. *)
Theorem malformed_pairing_not_reported (rows : list Pairing.t)
        (p0 p1 : Player.t) (gid : Z) (r1 r2 : Pairing.t) :
  db.pairing_first rows (Player.id p0) gid = Some r1 ->
  db.pairing_first rows (Player.id p1) gid = Some r2 ->
  ~ (Pairing.color r1 = "white" /\ Pairing.color r2 = "black"
     \/ Pairing.color r1 = "black" /\ Pairing.color r2 = "white") ->
  unparse_players_with_color rows [p0; p1] gid =
  Ok (if String.eqb (Pairing.color r1) "white" then Spec.colored p0 p1
      else if String.eqb (Pairing.color r2) "white" then Spec.colored p1 p0
      else ∅).
Proof.
  intros H1 H2 _. now apply unparse_players_with_color_found.
Qed.

Lemma malformed_pairing_not_reported_witness :
  let p0 := Player.mk 1 "Anatoly" "Karpov" in
  let p1 := Player.mk 2 "Garry" "Kasparov" in
  let rows := [Pairing.mk 1 7 2 "white"; Pairing.mk 2 7 1 "white"] in
  unparse_players_with_color rows [p0; p1] 7 = Ok (Spec.colored p0 p1).
Proof.
  intros p0 p1 rows.
  apply (malformed_pairing_not_reported rows p0 p1 7
           (Pairing.mk 2 7 1 "white") (Pairing.mk 1 7 2 "white"));
    [reflexivity | reflexivity |].
  intros [[_ H] | [H _]]; discriminate H.
Defined.

(** C2, counterexample: two black pairings give the empty mapping and no
    error. *)
Lemma two_black_pairings_give_empty_mapping :
  unparse_players_with_color
    [Pairing.mk 1 7 2 "black"; Pairing.mk 2 7 1 "black"]
    [Player.mk 1 "Anatoly" "Karpov"; Player.mk 2 "Garry" "Kasparov"] 7
  = Ok ∅.
Proof. reflexivity. Qed.

(** *** Construction *)

(** The text made of runs turned into newlines holds no other
    whitespace. *)
Lemma runs_to_newline_whitespace (in_run : bool) (s : string) :
  Spec.other_whitespace (Spec.runs_to_newline in_run s) = false.
Proof.
  revert in_run. induction s as [|c s IH]; intros in_run; [reflexivity |].
  cbn [Spec.runs_to_newline]. destruct (Str.isspace c) eqn:Hc.
  - destruct in_run; [apply IH |].
    cbn [Spec.other_whitespace]. rewrite IH. reflexivity.
  - cbn [Spec.other_whitespace]. now rewrite Hc, IH.
Qed.

(** C9, as the code has it: with no delimiter given, the text kept in
    [self.pgn] and handed to the reader is the input with leading and
    trailing whitespace dropped and every maximal run of whitespace
    replaced by one newline (the line feed, code point 10).  It is not the
    input verbatim whenever the input holds a whitespace character other
    than the newline; an input already in that form is handed over as it
    is. *)
Theorem init_without_delimiter_normalizes
        (loads : string -> res (list ParsedGame.t))
        (s : string) (gid : option Z) (v : bool) :
  s <> "" ->
  init_pgn (Some s) None = Ok (Some (Spec.normalize s))
  /\ init loads (Some s) gid v None =
     match Spec.normalize s with
     | "" => Ok (mk (Some "") gid None v)
     | text => games ← loads text; Ok (mk (Some text) gid (Some games) v)
     end
  /\ (Spec.other_whitespace s = true -> init_pgn (Some s) None <> Ok (Some s))
  /\ (Spec.normalize s = s -> init_pgn (Some s) None = Ok (Some s)).
Proof.
  intros Hs.
  assert (Hpgn : init_pgn (Some s) None = Ok (Some (Spec.normalize s))).
  { unfold init_pgn. destruct s as [|c s]; [congruence |].
    cbn [mbind res_bind]. now rewrite join_split_ws. }
  split; [exact Hpgn |]. split.
  - unfold init. rewrite Hpgn. cbn [mbind res_bind].
    destruct (Spec.normalize s); [reflexivity |].
    destruct (loads _); reflexivity.
  - split.
    + intros Hws. rewrite Hpgn. intros [= Heq].
      pose proof (runs_to_newline_whitespace false (Str.strip s)) as Hno.
      fold (Spec.normalize s) in Hno. rewrite Heq in Hno. congruence.
    + intros Heq. now rewrite Hpgn, Heq.
Qed.

(** Spaces and a tab become single newlines, the ends are trimmed, and
    the text differs from the input. *)
Lemma init_without_delimiter_normalizes_witness :
  init_pgn (Some " 1. e4  e5	2. Nf3 ") None
  = Ok (Some "1.
e4
e5
2.
Nf3")
  /\ init_pgn (Some " 1. e4  e5	2. Nf3 ") None <> Ok (Some " 1. e4  e5	2. Nf3 ").
Proof.
  destruct (init_without_delimiter_normalizes
              (fun _ => Ok []) " 1. e4  e5	2. Nf3 " None false)
    as (Hpgn & _ & Hdiff & _); [discriminate |].
  split; [exact Hpgn | apply Hdiff; reflexivity].
Defined.

(** C9, counterexample: an input without whitespace is handed to the
    reader verbatim. *)
Lemma init_keeps_text_without_whitespace :
  init_pgn (Some "e4") None = Ok (Some "e4").
Proof. reflexivity. Qed.

(** *** Formatting *)

Section FormatLemmas.
Variable full_name : Player.t -> string.
Variable dumps : Game.t -> string.
Variable rows : list Pairing.t.

Lemma attrs_set_attr (n v : string) (g : Game.t) :
  Game.attrs (Game.set_attr n v g) = <[n := v]> (Game.attrs g).
Proof. reflexivity. Qed.

Lemma format_game_dict (rt : string) (g : Game.t)
      (po : gmap string Player.t) (W B : Player.t) :
  unparse_players_with_color rows (Game.players g) (Game.id g) = Ok po ->
  po !! "white" = Some W -> po !! "black" = Some B ->
  rt = "dict" \/ rt = "json" ->
  format_game full_name dumps rows rt g = (Ok (Dict (game_dict full_name W B g)), named full_name W B g).
Proof.
  intros Hres HW HB Hrt.
  unfold format_game, getattr, setattr.
  unfold bind, get, lift, getitem, modify, ret.
  rewrite Hres, HW, HB.
  assert (Hb : String.eqb rt "dict" || String.eqb rt "json" = true)
    by (destruct Hrt; subst; reflexivity).
  rewrite Hb, !attrs_set_attr.
  rewrite lookup_insert_ne by discriminate.
  rewrite lookup_insert_eq. cbn beta iota.
  rewrite attrs_set_attr, lookup_insert_eq. reflexivity.
Qed.

Lemma format_game_pgn (rt : string) (g : Game.t)
      (po : gmap string Player.t) (W B : Player.t) (m : string) :
  unparse_players_with_color rows (Game.players g) (Game.id g) = Ok po ->
  po !! "white" = Some W -> po !! "black" = Some B ->
  rt <> "dict" -> rt <> "json" ->
  Game.moves g = VStr m ->
  format_game full_name dumps rows rt g
  = (Ok (Pgn (dumps (pgn_ready full_name W B (Str.split_scan "," 0 m) g))),
     pgn_ready full_name W B (Str.split_scan "," 0 m) g).
Proof.
  intros Hres HW HB Hd Hj Hm.
  unfold format_game, getattr, setattr.
  unfold bind, get, lift, getitem, modify, ret.
  rewrite Hres, HW, HB.
  apply String.eqb_neq in Hd, Hj. rewrite Hd, Hj.
  cbn [orb Game.moves Game.set_attr]. rewrite Hm.
  reflexivity.
Qed.

(** A game whose moves are already a list cannot be formatted as text. *)
Lemma format_game_pgn_list (rt : string) (g : Game.t)
      (po : gmap string Player.t) (W B : Player.t) (l : list string) :
  unparse_players_with_color rows (Game.players g) (Game.id g) = Ok po ->
  po !! "white" = Some W -> po !! "black" = Some B ->
  rt <> "dict" -> rt <> "json" ->
  Game.moves g = VList l ->
  format_game full_name dumps rows rt g = (Raise AttributeError, named full_name W B g).
Proof.
  intros Hres HW HB Hd Hj Hm.
  unfold format_game, getattr, setattr.
  unfold bind, get, lift, getitem, modify, ret.
  rewrite Hres, HW, HB.
  apply String.eqb_neq in Hd, Hj. rewrite Hd, Hj.
  cbn [orb Game.moves Game.set_attr]. rewrite Hm.
  reflexivity.
Qed.
End FormatLemmas.

(** Sample data: a stored game with its two players and pairings. *)
Lemma sample_resolution :
  unparse_players_with_color
    [Pairing.mk 1 1 2 "black"; Pairing.mk 2 1 1 "white"]
    [Player.mk 1 "Anatoly" "Karpov"; Player.mk 2 "Garry" "Kasparov"] 1
  = Ok (Spec.colored (Player.mk 1 "Anatoly" "Karpov") (Player.mk 2 "Garry" "Kasparov")).
Proof. reflexivity. Qed.

(** C1, as the code has it: for the return types dict and json,
    [format_game] returns a mapping with exactly the ten keys, the display
    names under white and black, the stored columns under the other keys,
    and under moves the stored delimited string, not split. *)
Theorem format_game_structured (full_name : Player.t -> string)
        (dumps : Game.t -> string) (rows : list Pairing.t)
        (rt : string) (g : Game.t) (po : gmap string Player.t)
        (W B : Player.t) (m : string) :
  unparse_players_with_color rows (Game.players g) (Game.id g) = Ok po ->
  po !! "white" = Some W -> po !! "black" = Some B ->
  rt = "dict" \/ rt = "json" ->
  Game.moves g = VStr m ->
  exists d : gmap string value,
    fst (format_game full_name dumps rows rt g) = Ok (Dict d)
    /\ dom d = {[ "event"; "site"; "date"; "round"; "white_elo"; "black_elo";
                  "white"; "black"; "moves"; "eco" ]}
    /\ d !! "event" = Some (VStr (Game.event g))
    /\ d !! "site" = Some (VStr (Game.site g))
    /\ d !! "date" = Some (VStr (Game.date g))
    /\ d !! "round" = Some (VStr (Game.match_round g))
    /\ d !! "white_elo" = Some (VStr (Game.white_elo g))
    /\ d !! "black_elo" = Some (VStr (Game.black_elo g))
    /\ d !! "white" = Some (VStr (full_name W))
    /\ d !! "black" = Some (VStr (full_name B))
    /\ d !! "moves" = Some (VStr m)
    /\ d !! "eco" = Some (VStr (Game.eco g)).
Proof.
  intros Hres HW HB Hrt Hm.
  exists (game_dict full_name W B (named full_name W B g)).
  rewrite (format_game_dict full_name dumps rows rt g po W B Hres HW HB Hrt).
  split; [reflexivity |]. split.
  - unfold game_dict. rewrite !dom_insert_L, dom_empty_L. set_solver.
  - unfold game_dict, named. cbn [Game.moves Game.set_attr Game.eco Game.event
      Game.site Game.date Game.match_round Game.white_elo Game.black_elo].
    rewrite Hm.
    repeat split;
      repeat (first [ apply lookup_insert_eq
                    | rewrite lookup_insert_ne by discriminate ]).
Qed.

Lemma format_game_structured_witness :
  exists d : gmap string value,
    fst (format_game Spec.full_name (fun _ => "") sample_pairings "dict" sample_game)
    = Ok (Dict d)
    /\ dom d = {[ "event"; "site"; "date"; "round"; "white_elo"; "black_elo";
                  "white"; "black"; "moves"; "eco" ]}
    /\ d !! "event" = Some (VStr "World Championship")
    /\ d !! "site" = Some (VStr "Moscow")
    /\ d !! "date" = Some (VStr "1985.09.03")
    /\ d !! "round" = Some (VStr "1")
    /\ d !! "white_elo" = Some (VStr "2720")
    /\ d !! "black_elo" = Some (VStr "2700")
    /\ d !! "white" = Some (VStr "Anatoly Karpov")
    /\ d !! "black" = Some (VStr "Garry Kasparov")
    /\ d !! "moves" = Some (VStr "e4,e5,Nf3")
    /\ d !! "eco" = Some (VStr "C20").
Proof.
  apply (format_game_structured Spec.full_name (fun _ => "") sample_pairings
           "dict" sample_game
           (Spec.colored (Player.mk 1 "Anatoly" "Karpov") (Player.mk 2 "Garry" "Kasparov"))
           (Player.mk 1 "Anatoly" "Karpov") (Player.mk 2 "Garry" "Kasparov") "e4,e5,Nf3");
    first [reflexivity | left; reflexivity].
Defined.

(** C1, counterexample: the value under moves is the stored string
    "e4,e5,Nf3", not the sequence of its three moves. *)
Lemma format_game_dict_moves_not_split :
  exists d : gmap string value,
    fst (format_game Spec.full_name (fun _ => "") sample_pairings "dict" sample_game)
    = Ok (Dict d)
    /\ d !! "moves" = Some (VStr "e4,e5,Nf3")
    /\ d !! "moves" <> Some (VList ["e4"; "e5"; "Nf3"]).
Proof.
  exists (game_dict Spec.full_name (Player.mk 1 "Anatoly" "Karpov")
            (Player.mk 2 "Garry" "Kasparov") sample_game).
  split; [|split].
  - rewrite (format_game_dict Spec.full_name (fun _ => "") sample_pairings "dict"
               sample_game _ (Player.mk 1 "Anatoly" "Karpov")
               (Player.mk 2 "Garry" "Kasparov") sample_resolution);
      first [reflexivity | left; reflexivity].
  - reflexivity.
  - intros H. assert (Hm : game_dict Spec.full_name (Player.mk 1 "Anatoly" "Karpov")
            (Player.mk 2 "Garry" "Kasparov") sample_game !! "moves" = Some (VStr "e4,e5,Nf3"))
      by reflexivity.
    rewrite Hm in H. discriminate H.
Qed.

(** C10: for the return type pgn, [format_game] assigns to the game it
    is given: afterwards [moves] is the list of the split moves and no
    longer a delimited string, and white, black, round, whiteelo, blackelo
    and the seven placeholder attributes are set; formatting the same
    object as text once more fails. *)
Theorem format_game_pgn_mutates (full_name : Player.t -> string)
        (dumps : Game.t -> string) (rows : list Pairing.t)
        (g : Game.t) (po : gmap string Player.t) (W B : Player.t) (m : string) :
  unparse_players_with_color rows (Game.players g) (Game.id g) = Ok po ->
  po !! "white" = Some W -> po !! "black" = Some B ->
  Game.moves g = VStr m ->
  let g' := snd (format_game full_name dumps rows "pgn" g) in
  fst (format_game full_name dumps rows "pgn" g) = Ok (Pgn (dumps g'))
  /\ Game.moves g' = VList (Str.split_scan "," 0 m)
  /\ (forall s : string, Game.moves g' <> VStr s)
  /\ Game.attrs g' =
     <["fen" := ""]> (<["mode" := ""]> (<["termination" := ""]>
     (<["time" := ""]> (<["timecontrol" := ""]> (<["plycount" := ""]>
     (<["annotator" := ""]> (<["blackelo" := Game.black_elo g]>
     (<["whiteelo" := Game.white_elo g]> (<["round" := Game.match_round g]>
     (<["black" := full_name B]> (<["white" := full_name W]>
        (Game.attrs g))))))))))))
  /\ g' <> g
  /\ fst (format_game full_name dumps rows "pgn" g') = Raise AttributeError.
Proof.
  intros Hres HW HB Hm g'. subst g'.
  rewrite (format_game_pgn full_name dumps rows "pgn" g po W B m Hres HW HB)
    by (discriminate || assumption).
  cbn [fst snd].
  split; [reflexivity |]. split; [reflexivity |].
  split; [intros s; discriminate |]. split; [reflexivity |].
  split.
  - intros Heq. apply (f_equal Game.moves) in Heq.
    rewrite Hm in Heq. discriminate Heq.
  - rewrite (format_game_pgn_list full_name dumps rows "pgn" _ po W B
               (Str.split_scan "," 0 m)); first [reflexivity | discriminate | assumption].
Qed.

Lemma format_game_pgn_mutates_witness :
  Game.moves (snd (format_game Spec.full_name (fun _ => "") sample_pairings "pgn"
                     sample_game))
  = VList ["e4"; "e5"; "Nf3"].
Proof.
  refine (proj1 (proj2 (format_game_pgn_mutates Spec.full_name (fun _ => "")
            sample_pairings sample_game
            (Spec.colored (Player.mk 1 "Anatoly" "Karpov") (Player.mk 2 "Garry" "Kasparov"))
            (Player.mk 1 "Anatoly" "Karpov") (Player.mk 2 "Garry" "Kasparov")
            "e4,e5,Nf3" _ _ _ _))); reflexivity.
Defined.

(** *** Running storage computations *)

Lemma wp_bind {S A B} (m : ST S A) (f : A -> ST S B) (Q : res B -> S -> Prop) (s : S) :
  wp m (fun r s' => match r with
                    | Ok a => wp (f a) Q s'
                    | Raise e => Q (Raise e) s'
                    end) s ->
  wp (bind m f) Q s.
Proof. unfold wp, bind. destruct (m s) as [[a | e] s']; auto. Qed.

Lemma wp_ret {S A} (a : A) (Q : res A -> S -> Prop) (s : S) :
  Q (Ok a) s -> wp (ret a) Q s.
Proof. auto. Qed.

Lemma wp_lift {S A} (r : res A) (Q : res A -> S -> Prop) (s : S) :
  Q r s -> wp (lift r) Q s.
Proof. auto. Qed.

Lemma wp_raise {S A} (e : exn) (Q : res A -> S -> Prop) (s : S) :
  Q (Raise e) s -> wp (raise e) Q s.
Proof. auto. Qed.

Lemma wp_io (Q : res unit -> Session -> Prop) (s : Session) :
  (fuse s = Some 0 -> Q (Raise StorageFailure) s) ->
  (fuse s <> Some 0 -> Q (Ok tt) (tick s)) ->
  wp db.io Q s.
Proof.
  unfold wp, db.io, tick. destruct s as [st q f]. cbn [fuse committed pending].
  destruct f as [[|n]|]; cbn [fst snd Nat.pred]; intros Hko Hok.
  - now apply Hko.
  - apply Hok. discriminate.
  - apply Hok. discriminate.
Qed.

Lemma wp_add (r : pending_row) (Q : res nat -> Session -> Prop) (s : Session) :
  Q (Ok (length (pending s))) (mkSession (committed s) (pending s ++ [r]) (fuse s)) ->
  wp (db.add r) Q s.
Proof. auto. Qed.

Lemma wp_commit (Q : res (list Z) -> Session -> Prop) (s : Session) :
  (fuse s = Some 0 -> Q (Raise StorageFailure) s) ->
  (fuse s <> Some 0 ->
   Q (Ok (fst (flush (pending s) (committed s))))
     (mkSession (snd (flush (pending s) (committed s))) [] (fuse (tick s)))) ->
  wp db.commit Q s.
Proof.
  intros Hko Hok. unfold db.commit. apply wp_bind, wp_io; [exact Hko |].
  intros Hf. unfold wp. cbn [tick committed pending fuse].
  destruct (flush (pending s) (committed s)) as [ids st] eqn:Hfl.
  cbn [fst snd] in *. now apply Hok.
Qed.

Lemma wp_count {A} (q : Store -> list A) (Q : res nat -> Session -> Prop) (s : Session) :
  (fuse s = Some 0 -> Q (Raise StorageFailure) s) ->
  (fuse s <> Some 0 -> Q (Ok (length (q (committed s)))) (tick s)) ->
  wp (db.count q) Q s.
Proof.
  intros Hko Hok. unfold db.count. apply wp_bind, wp_io; [exact Hko |].
  intros Hf. now apply Hok.
Qed.

Lemma wp_first {A} (q : Store -> list A) (Q : res (option A) -> Session -> Prop) (s : Session) :
  (fuse s = Some 0 -> Q (Raise StorageFailure) s) ->
  (fuse s <> Some 0 -> Q (Ok (head (q (committed s)))) (tick s)) ->
  wp (db.first q) Q s.
Proof.
  intros Hko Hok. unfold db.first. apply wp_bind, wp_io; [exact Hko |].
  intros Hf. now apply Hok.
Qed.

Lemma wp_expunge_all (Q : res unit -> Session -> Prop) (s : Session) :
  Q (Ok tt) (mkSession (committed s) [] (fuse s)) -> wp db.expunge_all Q s.
Proof. auto. Qed.

(** One step of symbolic execution. *)
Ltac wp_step :=
  cbn beta iota;
  lazymatch goal with
  | |- wp (bind _ _) _ _ => apply wp_bind
  | |- wp (ret _) _ _ => apply wp_ret
  | |- wp (lift _) _ _ => apply wp_lift
  | |- wp (raise _) _ _ => apply wp_raise
  | |- wp (db.add _) _ _ => apply wp_add
  | |- wp db.expunge_all _ _ => apply wp_expunge_all
  end.

Lemma tick_fuse_none (s : Session) : fuse s = None -> fuse (tick s) = None.
Proof. unfold tick. cbn. now intros ->. Qed.

Lemma player_in_db_wp (d : name_dict) (Q : res (option Z) -> Session -> Prop) (s : Session) :
  (forall s', committed s' = committed s -> pending s' = pending s ->
              fuse s <> None -> fuse s' = Some 0 -> Q (Raise StorageFailure) s') ->
  (forall s', committed s' = committed s -> pending s' = pending s ->
              (fuse s = None -> fuse s' = None) ->
              Q (Ok (found_id d (committed s))) s') ->
  wp (player_in_db (Parsed d)) Q s.
Proof.
  intros Hko Hok. unfold player_in_db.
  apply wp_bind, wp_lift. apply wp_bind, wp_count.
  { intros Hf. apply Hko; congruence. }
  intros Hf. unfold found_id in Hok.
  destruct (db.player_filter_by (first_name d) (last_name d) (committed s))
    as [|p l] eqn:Hq; cbn [length Nat.ltb Nat.leb head fmap option_fmap option_map] in *.
  - apply wp_ret. apply Hok; try reflexivity. apply tick_fuse_none.
  - apply wp_bind, wp_first.
    + intros Hf'. apply Hko; try reflexivity; [|exact Hf'].
      intros Hn. apply tick_fuse_none in Hn. congruence.
    + intros Hf'. cbn [tick committed]. rewrite Hq. cbn [head].
      apply wp_ret. apply Hok; try reflexivity.
      intros Hn. now do 2 apply tick_fuse_none.
Qed.

Lemma add_players_outcome (w b : string) (s : Session) :
  pending s = [] ->
  wp (add_players w b)
     (outcome s
        (fun ids st' =>
           ids = player_ids (parsed_name w) (parsed_name b) (committed s)
           /\ st' = snd (flush (new_players (parsed_name w) (parsed_name b) (committed s))
                               (committed s)))
        (fun st' => st' = committed s)) s.
Proof.
  intros Hp. unfold add_players. rewrite !parse_player_name_eq.
  apply wp_bind, wp_lift. apply wp_bind, wp_lift.
  apply wp_bind, player_in_db_wp.
  { intros s1 Hc1 Hp1 Hn Hf1. cbn [outcome]. auto. }
  intros s1 Hc1 Hp1 Hf1.
  apply wp_bind, player_in_db_wp.
  { intros s2 Hc2 Hp2 Hn Hf2. cbn [outcome]. repeat split; try congruence.
    intros Hn0. apply Hf1 in Hn0. congruence. }
  intros s2 Hc2 Hp2 Hf2. rewrite Hc1.
  assert (Hpend : pending s2 = []) by congruence.
  assert (Hcomm : committed s2 = committed s) by congruence.
  assert (Hfuse : fuse s = None -> fuse s2 = None) by auto.
  clear Hc1 Hp1 Hf1 Hc2 Hp2 Hf2 s1.
  unfold player_ids, new_players.
  destruct s2 as [st2 q2 f2]. cbn [pending committed fuse] in *. subst q2 st2.
  destruct (not_ (found_id (parsed_name w) (committed s))) eqn:Hw;
    destruct (not_ (found_id (parsed_name b) (committed s))) eqn:Hb;
    repeat (wp_step; cbn [pending committed fuse length app]);
    (apply wp_commit; cbn [pending committed fuse tick];
     [ intros Hf; cbn beta iota; cbn [outcome fuse]; repeat split; try congruence;
       intros Hn0; apply Hfuse in Hn0; congruence
     | intros Hf; cbn [flush insert_row fst snd];
       repeat (wp_step; cbn [key index lookup list_lookup]);
       cbn [outcome pending committed fuse nth]; repeat split;
       intros Hn0; apply Hfuse in Hn0; now subst f2 ]).
Qed.

Lemma wp_mono {S A} (m : ST S A) (Q Q' : res A -> S -> Prop) (s : S) :
  wp m Q s -> (forall r s', Q r s' -> Q' r s') -> wp m Q' s.
Proof. unfold wp. auto. Qed.

Lemma add_game_outcome (game : ParsedGame.t) (s : Session) :
  pending s = [] ->
  wp (add_game game)
     (outcome s
        (fun i st' =>
           i = fst (insert_row (NewGame (new_game game)) (committed s))
           /\ st' = snd (insert_row (NewGame (new_game game)) (committed s)))
        (fun st' => st' = committed s)) s.
Proof.
  intros Hp. unfold add_game. fold (new_game game).
  wp_step. wp_step. rewrite Hp. cbn [app length].
  wp_step. apply wp_commit; cbn [pending committed fuse tick].
  - intros Hf. cbn beta iota. cbn [outcome fuse]. repeat split; congruence.
  - intros Hf. cbn [flush insert_row fst snd key].
    wp_step. cbn [index lookup list_lookup outcome pending committed fuse].
    repeat split. now intros ->.
Qed.

Lemma add_pairings_outcome (gid : Z) (ids : id_dict) (s : Session) :
  pending s = [] ->
  wp (add_pairings gid ids)
     (outcome s
        (fun _ st' =>
           st' = snd (flush [NewPairing gid (black ids) "black";
                             NewPairing gid (white ids) "white"] (committed s)))
        (fun st' => st' = committed s)) s.
Proof.
  intros Hp. unfold add_pairings.
  wp_step. wp_step. rewrite Hp. cbn [app].
  wp_step. wp_step. cbn [pending app].
  wp_step. apply wp_commit; cbn [pending committed fuse tick].
  - intros Hf. cbn beta iota. cbn [outcome fuse]. repeat split; congruence.
  - intros Hf. wp_step. cbn [outcome pending committed fuse].
    repeat split. now intros ->.
Qed.

(** One game: the three commits in turn, or a failure that leaves the
    store as it was after the last commit that succeeded. *)
Lemma add_one_outcome (game : ParsedGame.t) (s : Session) :
  pending s = [] ->
  wp (add_one game)
     (outcome s
        (fun _ st' => st' = after_pairings game (committed s))
        (fun st' => st' = committed s
                    \/ st' = after_players game (committed s)
                    \/ st' = after_game game (committed s))) s.
Proof.
  intros Hp. unfold add_one.
  wp_step. eapply wp_mono; [apply add_players_outcome, Hp |].
  intros [ids | e] s1; cbn [outcome].
  2: { intros (-> & Hn & Hf & Hc). auto 6. }
  intros (Hp1 & Hf1 & -> & Hc1).
  wp_step. eapply wp_mono; [apply add_game_outcome, Hp1 |].
  intros [gid | e] s2; cbn [outcome].
  2: { intros (-> & Hn & Hf & Hc). repeat split; auto.
       right; left. rewrite Hc, Hc1. reflexivity. }
  intros (Hp2 & Hf2 & -> & Hc2).
  wp_step. eapply wp_mono; [apply add_pairings_outcome, Hp2 |].
  intros [[] | e] s3; cbn [outcome].
  2: { intros (-> & Hn & Hf & Hc). repeat split; auto.
       right; right. rewrite Hc, Hc2, Hc1. reflexivity. }
  intros (Hp3 & Hf3 & Hc3).
  wp_step. cbn [outcome pending committed fuse]. repeat split; auto.
  rewrite Hc3, Hc2, Hc1. reflexivity.
Qed.

Lemma after_batch_cons (game : ParsedGame.t) (games : list ParsedGame.t) (st : Store) :
  after_batch (game :: games) st = after_batch games (after_pairings game st).
Proof. reflexivity. Qed.

Lemma cut_short_cons (game : ParsedGame.t) (games : list ParsedGame.t) (st st' : Store) :
  cut_short games (after_pairings game st) st' -> cut_short (game :: games) st st'.
Proof.
  intros (done & g & rest & -> & H).
  exists (game :: done), g, rest. split; [reflexivity |].
  now rewrite !after_batch_cons.
Qed.

(** A batch: every game in turn, or a failure that cuts the batch short. *)
Lemma for_each_outcome (games : list ParsedGame.t) (s : Session) :
  pending s = [] ->
  wp (for_each games add_one)
     (outcome s (fun _ st' => st' = after_batch games (committed s))
                (cut_short games (committed s))) s.
Proof.
  revert s. induction games as [|game games IH]; intros s Hp; cbn [for_each].
  - wp_step. cbn [outcome]. auto.
  - wp_step. eapply wp_mono; [apply add_one_outcome, Hp |].
    intros [[] | e] s1; cbn [outcome].
    2: { intros (-> & Hn & Hf & Hc). repeat split; auto.
         exists [], game, games. split; [reflexivity |]. exact Hc. }
    intros (Hp1 & Hf1 & Hc1).
    eapply wp_mono; [apply IH, Hp1 |].
    intros [[] | e] s2; cbn [outcome]; rewrite Hc1.
    + intros (Hp2 & Hf2 & Hc2). auto.
    + intros (-> & Hn & Hf & Hc). repeat split; auto.
      now apply cut_short_cons.
Qed.

Lemma add_games_for_each (self : GameParser.t) (games : list ParsedGame.t) (s : Session) :
  parsed_games self = Some games -> add_games self s = for_each games add_one s.
Proof. unfold add_games. intros ->. now destruct games. Qed.

(** *** Pairing rows come in pairs *)

Lemma in_pairs_app (l1 l2 : list Pairing.t) :
  in_pairs l1 -> in_pairs l2 -> in_pairs (l1 ++ l2).
Proof. induction 1; cbn [app]; auto using in_pairs. Qed.

Lemma new_players_rows (w b : name_dict) (st : Store) :
  game_rows (snd (flush (new_players w b st) st)) = game_rows st
  /\ pairing_rows (snd (flush (new_players w b st) st)) = pairing_rows st.
Proof.
  unfold new_players.
  destruct (not_ (found_id w st)), (not_ (found_id b st)); split; reflexivity.
Qed.

Lemma after_players_pairing_rows (game : ParsedGame.t) (st : Store) :
  pairing_rows (after_players game st) = pairing_rows st.
Proof. apply new_players_rows. Qed.

Lemma after_game_pairing_rows (game : ParsedGame.t) (st : Store) :
  pairing_rows (after_game game st) = pairing_rows st.
Proof. unfold after_game. cbn. apply after_players_pairing_rows. Qed.

Lemma after_pairings_pairing_rows (game : ParsedGame.t) (st : Store) :
  exists i j gid b w,
    pairing_rows (after_pairings game st)
    = pairing_rows st ++ [Pairing.mk i gid b "black"; Pairing.mk j gid w "white"].
Proof.
  unfold after_pairings. cbn [flush insert_row snd fst pairing_rows].
  rewrite after_game_pairing_rows, <- app_assoc. cbn [app]. eauto 6.
Qed.

Lemma after_batch_pairing_rows (games : list ParsedGame.t) (st : Store) :
  exists prs, pairing_rows (after_batch games st) = pairing_rows st ++ prs
              /\ in_pairs prs.
Proof.
  revert st. induction games as [|game games IH]; intros st.
  - exists []. split; [now rewrite app_nil_r | constructor].
  - rewrite after_batch_cons.
    destruct (IH (after_pairings game st)) as (prs & -> & Hprs).
    destruct (after_pairings_pairing_rows game st) as (i & j & gid & b & w & ->).
    eexists. rewrite <- app_assoc. split; [reflexivity |].
    cbn [app]. now constructor.
Qed.

(** *** Storage failures during a batch *)

(** C8, as the code has it: a storage failure is propagated at once as
    [StorageFailure] and cuts the batch short, and without a failure the
    whole batch is stored; the two Pairing rows of a game are written by
    one commit and become visible together or not at all; but the players,
    the game row and the pairings of a game are written by three separate
    commits, so what was committed before the failing operation stays. *)
Theorem add_games_storage_failure (self : GameParser.t)
        (games : list ParsedGame.t) (s : Session) :
  parsed_games self = Some games ->
  pending s = [] ->
  let r := fst (add_games self s) in
  let st' := committed (snd (add_games self s)) in
  (fuse s = None -> r = Ok tt)
  /\ (r = Ok tt -> st' = after_batch games (committed s))
  /\ (forall e, r = Raise e ->
        e = StorageFailure /\ fuse (snd (add_games self s)) = Some 0
        /\ cut_short games (committed s) st')
  /\ (forall game rest e s1,
        games = game :: rest -> add_one game s = (Raise e, s1) ->
        add_games self s = (Raise e, s1))
  /\ exists prs, pairing_rows st' = pairing_rows (committed s) ++ prs
                 /\ in_pairs prs.
Proof.
  intros Hgames Hp r st'. subst r st'.
  rewrite (add_games_for_each self games s Hgames).
  pose proof (for_each_outcome games s Hp) as H. unfold wp in H.
  destruct (for_each games add_one s) as [[[] | e] s'] eqn:Hrun;
    cbn [fst snd outcome] in *.
  - destruct H as (Hp' & Hf' & ->).
    split; [reflexivity |]. split; [reflexivity |]. split; [discriminate |].
    split.
    + intros game rest e s1 -> Hone. cbn [for_each] in Hrun.
      unfold bind in Hrun. rewrite Hone in Hrun. discriminate Hrun.
    + apply after_batch_pairing_rows.
  - destruct H as (-> & Hn & Hf & Hcut).
    split; [intros Hnone; contradiction |]. split; [discriminate |].
    split; [intros e [= <-]; auto |]. split.
    + intros game rest e s1 -> Hone. cbn [for_each] in Hrun.
      unfold bind in Hrun. rewrite Hone in Hrun. now rewrite Hrun.
    + destruct Hcut as (done & game & rest & -> & [-> | [-> | ->]]);
        rewrite ?after_game_pairing_rows, ?after_players_pairing_rows;
        apply after_batch_pairing_rows.
Qed.

Lemma add_games_storage_failure_witness :
  fst (add_games (sample_parser [sample_parsed; sample_parsed]) (empty_session None))
  = Ok tt.
Proof.
  refine (proj1 (add_games_storage_failure
                   (sample_parser [sample_parsed; sample_parsed])
                   [sample_parsed; sample_parsed] (empty_session None) _ _) _);
    reflexivity.
Defined.

(** C8, counterexample: when the fifth storage operation (the commit of
    the pairings) fails, the failure is propagated but the game row stays
    committed without any pairing. *)
Lemma game_row_committed_without_pairings :
  let out := add_games (sample_parser [sample_parsed]) (empty_session (Some 4)) in
  fst out = Raise StorageFailure
  /\ map Game.id (game_rows (committed (snd out))) = [1%Z]
  /\ pairing_rows (committed (snd out)) = [].
Proof. vm_compute. repeat split. Qed.

(** *** The stored moves *)

Lemma add_game_ok (game : ParsedGame.t) (s : Session) :
  pending s = [] -> fuse s <> Some 0 ->
  add_game game s
  = (Ok (fst (insert_row (NewGame (new_game game)) (committed s))),
     mkSession (snd (insert_row (NewGame (new_game game)) (committed s))) []
               (fuse (tick s))).
Proof.
  intros Hp Hf.
  enough (H : wp (add_game game)
                 (fun r s' => (r, s') =
                    (Ok (fst (insert_row (NewGame (new_game game)) (committed s))),
                     mkSession (snd (insert_row (NewGame (new_game game)) (committed s)))
                               [] (fuse (tick s)))) s).
  { unfold wp in H. now destruct (add_game game s). }
  unfold add_game. fold (new_game game).
  wp_step. wp_step. rewrite Hp. cbn [app length].
  wp_step. apply wp_commit; cbn [pending committed fuse tick]; [contradiction |].
  intros _. cbn [flush insert_row fst snd key].
  wp_step. reflexivity.
Qed.

(** C3, as the code has it: a non-empty move list whose tokens contain
    no comma is stored by [add_game] as the tokens joined by commas, and
    [format_game] splits the stored string back into the same list.  (A
    token with a comma is neither refused nor escaped.) *)
Theorem stored_moves_round_trip (full_name : Player.t -> string)
        (dumps : Game.t -> string) (rows : list Pairing.t)
        (game : ParsedGame.t) (s : Session) :
  ParsedGame.moves game <> [] ->
  Forall Spec.comma_free (ParsedGame.moves game) ->
  pending s = [] ->
  fuse s <> Some 0 ->
  exists (i : Z) (row : Game.t),
    fst (add_game game s) = Ok i
    /\ game_rows (committed (snd (add_game game s)))
       = game_rows (committed s) ++ [row]
    /\ Game.id row = i
    /\ Game.moves row = VStr (Str.join "," (ParsedGame.moves game))
    /\ Str.split "," (Str.join "," (ParsedGame.moves game))
       = Ok (ParsedGame.moves game)
    /\ forall (players : list Player.t) (po : gmap string Player.t) (W B : Player.t),
         unparse_players_with_color rows players i = Ok po ->
         po !! "white" = Some W -> po !! "black" = Some B ->
         Game.moves (snd (format_game full_name dumps rows "pgn"
                            (Game.set_players players row)))
         = VList (ParsedGame.moves game).
Proof.
  intros Hne Hall Hp Hf. rewrite (add_game_ok game s Hp Hf). cbn [fst snd committed].
  eexists _, _. split; [reflexivity |]. split; [reflexivity |].
  split; [reflexivity |]. split; [reflexivity |].
  split; [unfold Str.split; now rewrite split_scan_join |].
  intros players po W B Hres HW HB.
  erewrite format_game_pgn; [| exact Hres | exact HW | exact HB
                             | discriminate | discriminate | reflexivity].
  cbn [snd]. unfold pgn_ready. cbn [Game.moves Game.set_attr Game.set_moves].
  now rewrite split_scan_join.
Qed.

Lemma stored_moves_round_trip_witness :
  exists (i : Z) (row : Game.t),
    fst (add_game sample_parsed (empty_session None)) = Ok i
    /\ game_rows (committed (snd (add_game sample_parsed (empty_session None))))
       = [] ++ [row]
    /\ Game.id row = i
    /\ Game.moves row = VStr "e4,e5,Nf3"
    /\ Str.split "," "e4,e5,Nf3" = Ok ["e4"; "e5"; "Nf3"]
    /\ forall (players : list Player.t) (po : gmap string Player.t) (W B : Player.t),
         unparse_players_with_color sample_pairings players i = Ok po ->
         po !! "white" = Some W -> po !! "black" = Some B ->
         Game.moves (snd (format_game Spec.full_name (fun _ => "") sample_pairings "pgn"
                            (Game.set_players players row)))
         = VList ["e4"; "e5"; "Nf3"].
Proof.
  apply (stored_moves_round_trip Spec.full_name (fun _ => "") sample_pairings
           sample_parsed (empty_session None)).
  - discriminate.
  - repeat constructor.
  - reflexivity.
  - discriminate.
Defined.

(** C3, counterexample: a token with a comma is stored and split back
    into two tokens without any error, and an empty move list comes back
    as a list holding one empty token. *)
Lemma moves_not_round_tripped :
  ingest_and_format comma_parsed = (Ok (Pgn ""), Some (VList ["e4"; "e5"; "Nf3"]))
  /\ VList ["e4"; "e5"; "Nf3"] <> VList (ParsedGame.moves comma_parsed)
  /\ ingest_and_format empty_parsed = (Ok (Pgn ""), Some (VList [""]))
  /\ VList [""] <> VList (ParsedGame.moves empty_parsed).
Proof. repeat split; try discriminate; vm_compute; reflexivity. Qed.

(** *** Filtering *)

(** What the name criterion tests: the criterion as given against the
    lowered display names. *)
Lemma game_match_name (full_name : Player.t -> string) (rows : list Pairing.t)
      (g : Game.t) (args : gmap string string) (name : string)
      (po : gmap string Player.t) (W B : Player.t) :
  unparse_players_with_color rows (Game.players g) (Game.id g) = Ok po ->
  po !! "white" = Some W -> po !! "black" = Some B ->
  args !! "name" = Some name -> args !! "eco" = None ->
  game_match full_name rows g args
  = Ok (Str.contains name (Str.lower (full_name W))
        || Str.contains name (Str.lower (full_name B))).
Proof.
  intros Hres HW HB Hname Heco. unfold game_match, getitem.
  rewrite Hname, Heco, Hres. cbn [mbind res_bind]. rewrite HW. cbn [mbind res_bind].
  destruct (Str.contains name (Str.lower (full_name W))); cbn [negb orb mbind res_bind].
  - reflexivity.
  - rewrite HB. cbn [mbind res_bind].
    now destruct (Str.contains name (Str.lower (full_name B))).
Qed.

(** For a criterion already in lower case the test is the
    case-insensitive substring test. *)
Lemma game_match_name_lower (full_name : Player.t -> string) (rows : list Pairing.t)
      (g : Game.t) (args : gmap string string) (name : string)
      (po : gmap string Player.t) (W B : Player.t) :
  unparse_players_with_color rows (Game.players g) (Game.id g) = Ok po ->
  po !! "white" = Some W -> po !! "black" = Some B ->
  args !! "name" = Some name -> args !! "eco" = None ->
  Str.lower name = name ->
  game_match full_name rows g args
  = Ok (Spec.ci_substring name (full_name W) || Spec.ci_substring name (full_name B)).
Proof.
  intros Hres HW HB Hname Heco Hlow. unfold Spec.ci_substring. rewrite Hlow.
  now apply (game_match_name full_name rows g args name po W B).
Qed.

(** C6, at the failing input: the criterion "Kasp" is a substring of
    "Garry Kasparov" up to letter case, yet the game is not matched; the
    same criterion in lower case matches. *)
Theorem game_match_name_criterion_not_lowered :
  game_match Spec.full_name sample_pairings sample_game {["name" := "Kasp"]}
  = Ok false
  /\ Spec.ci_substring "Kasp" (Spec.full_name (Player.mk 2 "Garry" "Kasparov")) = true
  /\ game_match Spec.full_name sample_pairings sample_game {["name" := "kasp"]}
     = Ok true.
Proof.
  split; [|split].
  - rewrite (game_match_name Spec.full_name sample_pairings sample_game _ "Kasp" _
               (Player.mk 1 "Anatoly" "Karpov") (Player.mk 2 "Garry" "Kasparov")
               sample_resolution); reflexivity.
  - reflexivity.
  - rewrite (game_match_name Spec.full_name sample_pairings sample_game _ "kasp" _
               (Player.mk 1 "Anatoly" "Karpov") (Player.mk 2 "Garry" "Kasparov")
               sample_resolution); reflexivity.
Qed.

(** *** Player rows *)

(** C5, at the failing input: one game naming "Smith, John" as white and
    as black, ingested into an empty store, creates two Player rows for the
    one name. *)
Theorem same_name_on_both_sides_creates_two_rows :
  let out := add_games (sample_parser [mirror_parsed]) (empty_session None) in
  fst out = Ok tt
  /\ player_rows (committed (snd out))
     = [Player.mk 1 "John" "Smith"; Player.mk 2 "John" "Smith"].
Proof. vm_compute. split; reflexivity. Qed.

(** *** De-duplication when the two sides differ *)

Lemma next_id_pos (ids : list Z) : (0 < next_id ids)%Z.
Proof.
  unfold next_id.
  assert (H : (0 <= fold_right Z.max 0 ids)%Z) by (induction ids; cbn; lia).
  lia.
Qed.

Lemma found_id_none (d : name_dict) (st : Store) :
  found_id d st = None ->
  (first_name d, last_name d) ∉ map name_of (player_rows st).
Proof.
  unfold found_id, db.player_filter_by.
  induction (player_rows st) as [|p l IH]; cbn [map]; intros H.
  - apply not_elem_of_nil.
  - rewrite filter_cons in H. apply not_elem_of_cons.
    destruct (decide (Player.first_name p = first_name d
                      ∧ Player.last_name p = last_name d)) as [Hp | Hp].
    + discriminate H.
    + split; [|now apply IH].
      unfold name_of. intros [= H1 H2]. apply Hp. auto.
Qed.

Lemma found_id_some (d : name_dict) (st : Store) (i : Z) :
  found_id d st = Some i ->
  exists p, p ∈ player_rows st /\ Player.id p = i.
Proof.
  unfold found_id, db.player_filter_by.
  destruct (filter _ (player_rows st)) as [|p l] eqn:Hq; [discriminate |].
  intros [= <-]. exists p. split; [|reflexivity].
  assert (Hin : p ∈ p :: l) by apply list_elem_of_here.
  rewrite <- Hq in Hin. now apply list_elem_of_filter in Hin.
Qed.

(** Under the invariant, a player is created exactly when the name is
    not in the table. *)
Lemma not_found_id (d : name_dict) (st : Store) :
  unique_names st ->
  not_ (found_id d st) = true ->
  (first_name d, last_name d) ∉ map name_of (player_rows st).
Proof.
  intros [_ Hpos] Hnot. destruct (found_id d st) as [i|] eqn:Hf.
  - apply found_id_some in Hf as (p & Hin & <-).
    rewrite Forall_forall in Hpos. specialize (Hpos p Hin).
    cbn [not_] in Hnot. lia.
  - now apply found_id_none.
Qed.

Lemma unique_rows_add (rows : list Player.t) (i : Z) (f l : string) :
  NoDup (map name_of rows) /\ Forall (fun p => (0 < Player.id p)%Z) rows ->
  (0 < i)%Z ->
  (f, l) ∉ map name_of rows ->
  NoDup (map name_of (rows ++ [Player.mk i f l]))
  /\ Forall (fun p => (0 < Player.id p)%Z) (rows ++ [Player.mk i f l]).
Proof.
  intros [Hnd Hpos] Hi Hnew. split.
  - rewrite map_app. cbn [map]. apply NoDup_app. split; [exact Hnd |].
    split; [|apply NoDup_singleton].
    intros x Hx Hx'. apply list_elem_of_singleton in Hx'. subst x. contradiction.
  - apply Forall_app. split; [exact Hpos |]. now repeat constructor.
Qed.

Lemma after_players_unique_names (game : ParsedGame.t) (st : Store) :
  unique_names st -> distinct_sides game -> unique_names (after_players game st).
Proof.
  intros Hu Hd. unfold after_players, new_players, distinct_sides in *.
  set (w := parsed_name (ParsedGame.white game)) in *.
  set (b := parsed_name (ParsedGame.black game)) in *.
  pose proof (not_found_id w st Hu) as Hw.
  pose proof (not_found_id b st Hu) as Hb.
  unfold unique_names in *.
  destruct (not_ (found_id w st)), (not_ (found_id b st));
    cbn [app flush insert_row snd fst player_rows game_rows pairing_rows].
  - apply unique_rows_add.
    + apply unique_rows_add; auto using next_id_pos.
    + apply next_id_pos.
    + rewrite map_app. cbn [map].
      rewrite elem_of_app, list_elem_of_singleton. intros [H | H].
      * now apply Hb.
      * apply Hd. clearbody w b. destruct w, b.
        unfold name_of in H. cbn in H. congruence.
  - apply unique_rows_add; auto using next_id_pos.
  - apply unique_rows_add; auto using next_id_pos.
  - exact Hu.
Qed.

Lemma unique_names_same_players (st st' : Store) :
  player_rows st' = player_rows st -> unique_names st -> unique_names st'.
Proof. unfold unique_names. now intros ->. Qed.

Lemma after_game_unique_names (game : ParsedGame.t) (st : Store) :
  unique_names st -> distinct_sides game -> unique_names (after_game game st).
Proof.
  intros Hu Hd. apply (unique_names_same_players (after_players game st));
    [reflexivity | now apply after_players_unique_names].
Qed.

Lemma after_pairings_unique_names (game : ParsedGame.t) (st : Store) :
  unique_names st -> distinct_sides game -> unique_names (after_pairings game st).
Proof.
  intros Hu Hd. apply (unique_names_same_players (after_game game st));
    [reflexivity | now apply after_game_unique_names].
Qed.

Lemma after_batch_unique_names (games : list ParsedGame.t) (st : Store) :
  unique_names st -> Forall distinct_sides games -> unique_names (after_batch games st).
Proof.
  revert st. induction games as [|game games IH]; intros st Hu Hall; [exact Hu |].
  inversion Hall; subst. rewrite after_batch_cons.
  apply IH; [now apply after_pairings_unique_names | assumption].
Qed.

(** Whenever every game of a batch names two different players, no name
    is ever given two Player rows, whether the batch completes or is cut
    short by a storage failure. *)
Lemma add_games_unique_names (self : GameParser.t)
      (games : list ParsedGame.t) (s : Session) :
  parsed_games self = Some games ->
  pending s = [] ->
  unique_names (committed s) ->
  Forall distinct_sides games ->
  unique_names (committed (snd (add_games self s))).
Proof.
  intros Hgames Hp Hu Hall.
  rewrite (add_games_for_each self games s Hgames).
  pose proof (for_each_outcome games s Hp) as H. unfold wp in H.
  destruct (for_each games add_one s) as [[[] | e] s']; cbn [fst snd outcome] in *.
  - destruct H as (_ & _ & ->). now apply after_batch_unique_names.
  - destruct H as (_ & _ & _ & done & game & rest & -> & Hcut).
    apply Forall_app in Hall as [Hdone Hrest]. inversion Hrest; subst.
    pose proof (after_batch_unique_names done (committed s) Hu Hdone) as Hu'.
    destruct Hcut as [-> | [-> | ->]];
      auto using after_players_unique_names, after_game_unique_names.
Qed.

(** Two games with the same white player create one row for that player;
    two spellings create two rows. *)
Example same_white_twice :
  map name_of (player_rows (after_batch [sample_parsed; sample_parsed]
                                        (mkStore [] [] [])))
  = [("Anatoly", "Karpov"); ("Garry", "Kasparov")].
Proof. reflexivity. Qed.


(** * Further properties *)

(** *** Colour resolution at the edges *)

(** X1: colour resolution looks at the first two players only.  Fewer
    than two players raise [IndexError]; when the first player has no
    pairing in the game, [AttributeError] is raised; when the first
    player's pairing is white, the result is
    [{white: first, black: second}] whatever the second player's pairing
    is, even if there is none; when the first pairing is not white and the
    second player has no pairing, [AttributeError] is raised. *)
Theorem unparse_players_with_color_edges (rows : list Pairing.t) (gid : Z) :
  unparse_players_with_color rows [] gid = Raise IndexError
  /\ (forall p, unparse_players_with_color rows [p] gid = Raise IndexError)
  /\ (forall p0 p1 rest,
        unparse_players_with_color rows (p0 :: p1 :: rest) gid
        = unparse_players_with_color rows [p0; p1] gid)
  /\ (forall p0 p1,
        db.pairing_first rows (Player.id p0) gid = None ->
        unparse_players_with_color rows [p0; p1] gid = Raise AttributeError)
  /\ (forall p0 p1 r1,
        db.pairing_first rows (Player.id p0) gid = Some r1 ->
        Pairing.color r1 = "white" ->
        unparse_players_with_color rows [p0; p1] gid = Ok (Spec.colored p0 p1))
  /\ (forall p0 p1 r1,
        db.pairing_first rows (Player.id p0) gid = Some r1 ->
        Pairing.color r1 <> "white" ->
        db.pairing_first rows (Player.id p1) gid = None ->
        unparse_players_with_color rows [p0; p1] gid = Raise AttributeError).
Proof.
  unfold unparse_players_with_color, index.
  cbn [lookup list_lookup mbind res_bind].
  repeat split; try reflexivity.
  - intros p0 p1 H. now rewrite H.
  - intros p0 p1 r1 H Hw. rewrite H, Hw. cbn. now rewrite colored_insert.
  - intros p0 p1 r1 H Hw H1. rewrite H, H1.
    apply String.eqb_neq in Hw. now rewrite Hw.
Qed.

(** A white pairing for the first player and none for the second. *)
Lemma unparse_players_with_color_edges_witness :
  unparse_players_with_color [Pairing.mk 1 7 1 "white"]
    [Player.mk 1 "Anatoly" "Karpov"; Player.mk 2 "Garry" "Kasparov"] 7
  = Ok (Spec.colored (Player.mk 1 "Anatoly" "Karpov") (Player.mk 2 "Garry" "Kasparov")).
Proof.
  apply (proj1 (proj2 (proj2 (proj2 (proj2
           (unparse_players_with_color_edges [Pairing.mk 1 7 1 "white"] 7)))))
           (Player.mk 1 "Anatoly" "Karpov") (Player.mk 2 "Garry" "Kasparov")
           (Pairing.mk 1 7 1 "white")); reflexivity.
Defined.

(** *** Formatting at the edges *)

Section FormatEdges.
Variable full_name : Player.t -> string.
Variable dumps : Game.t -> string.
Variable rows : list Pairing.t.

Lemma format_game_raise (rt : string) (g : Game.t) (e : exn) :
  unparse_players_with_color rows (Game.players g) (Game.id g) = Raise e ->
  format_game full_name dumps rows rt g = (Raise e, g).
Proof.
  intros H. unfold format_game, bind, get, lift. now rewrite H.
Qed.

Lemma format_game_no_white (rt : string) (g : Game.t) (po : gmap string Player.t) :
  unparse_players_with_color rows (Game.players g) (Game.id g) = Ok po ->
  po !! "white" = None ->
  format_game full_name dumps rows rt g = (Raise KeyError, g).
Proof.
  intros H Hw. unfold format_game, bind, get, lift, getitem. now rewrite H, Hw.
Qed.

End FormatEdges.

(** X2: when colour resolution fails, or returns a mapping without
    white (as for two pairings that are both black), [format_game] raises
    for every return type (the error of the resolution, or [KeyError]) and
    assigns nothing to the game it was given. *)
Theorem format_game_unresolved (full_name : Player.t -> string)
        (dumps : Game.t -> string) (rows : list Pairing.t)
        (rt : string) (g : Game.t) :
  (forall po, unparse_players_with_color rows (Game.players g) (Game.id g) = Ok po ->
              po !! "white" = None) ->
  snd (format_game full_name dumps rows rt g) = g
  /\ fst (format_game full_name dumps rows rt g)
     = match unparse_players_with_color rows (Game.players g) (Game.id g) with
       | Ok _ => Raise KeyError
       | Raise e => Raise e
       end.
Proof.
  intros H.
  destruct (unparse_players_with_color rows (Game.players g) (Game.id g))
    as [po | e] eqn:Hres.
  - rewrite (format_game_no_white full_name dumps rows rt g po Hres (H po eq_refl)).
    split; reflexivity.
  - rewrite (format_game_raise full_name dumps rows rt g e Hres).
    split; reflexivity.
Qed.

Lemma format_game_unresolved_witness :
  let g := Game.set_players
             [Player.mk 1 "Anatoly" "Karpov"; Player.mk 2 "Garry" "Kasparov"]
             sample_game in
  let rows := [Pairing.mk 1 1 2 "black"; Pairing.mk 2 1 1 "black"] in
  snd (format_game Spec.full_name (fun _ => "") rows "dict" g) = g
  /\ fst (format_game Spec.full_name (fun _ => "") rows "dict" g) = Raise KeyError.
Proof.
  intros g rows.
  apply (format_game_unresolved Spec.full_name (fun _ => "") rows "dict" g).
  intros po [= <-]. reflexivity.
Defined.

(** *** Formatting the same object again *)

Lemma named_resolution (full_name : Player.t -> string) (rows : list Pairing.t)
      (W B W' B' : Player.t) (g : Game.t) :
  unparse_players_with_color rows (Game.players (named full_name W B g))
                             (Game.id (named full_name W B g))
  = unparse_players_with_color rows (Game.players g) (Game.id g).
Proof. reflexivity. Qed.

Lemma named_twice (full_name : Player.t -> string) (W B : Player.t) (g : Game.t) :
  named full_name W B (named full_name W B g) = named full_name W B g.
Proof.
  unfold named, Game.set_attr. cbn [Game.id Game.event Game.site Game.date
    Game.match_round Game.result Game.white_elo Game.black_elo Game.moves
    Game.eco Game.players Game.attrs].
  f_equal. apply map_eq. intros k.
  destruct (decide (k = "black")) as [-> | Hb];
    [now rewrite !lookup_insert_eq |].
  destruct (decide (k = "white")) as [-> | Hw];
    repeat first [ rewrite lookup_insert_eq
                 | rewrite lookup_insert_ne by congruence ];
    reflexivity.
Qed.

(** X3: formatting as a dictionary can be repeated: a second call on the
    object left by the first (return type dict or json both times) returns
    the same dictionary and leaves the object as it is. *)
Theorem format_game_dict_repeatable (full_name : Player.t -> string)
        (dumps : Game.t -> string) (rows : list Pairing.t)
        (rt rt' : string) (g : Game.t) (po : gmap string Player.t)
        (W B : Player.t) :
  unparse_players_with_color rows (Game.players g) (Game.id g) = Ok po ->
  po !! "white" = Some W -> po !! "black" = Some B ->
  rt = "dict" \/ rt = "json" ->
  rt' = "dict" \/ rt' = "json" ->
  format_game full_name dumps rows rt'
              (snd (format_game full_name dumps rows rt g))
  = format_game full_name dumps rows rt g.
Proof.
  intros Hres HW HB Hrt Hrt'.
  rewrite (format_game_dict full_name dumps rows rt g po W B Hres HW HB Hrt).
  cbn [snd].
  rewrite (format_game_dict full_name dumps rows rt' (named full_name W B g) po W B
             Hres HW HB Hrt').
  now rewrite named_twice.
Qed.

Lemma format_game_dict_repeatable_witness :
  format_game Spec.full_name (fun _ => "") sample_pairings "json"
    (snd (format_game Spec.full_name (fun _ => "") sample_pairings "dict" sample_game))
  = format_game Spec.full_name (fun _ => "") sample_pairings "dict" sample_game.
Proof.
  apply (format_game_dict_repeatable Spec.full_name (fun _ => "") sample_pairings
           "dict" "json" sample_game
           (Spec.colored (Player.mk 1 "Anatoly" "Karpov") (Player.mk 2 "Garry" "Kasparov"))
           (Player.mk 1 "Anatoly" "Karpov") (Player.mk 2 "Garry" "Kasparov"));
    first [reflexivity | left; reflexivity | right; reflexivity].
Defined.

(** X4: the assignment made by a textual formatting shows in a later
    dictionary: after [format_game] with return type pgn, formatting the
    same object as dict returns the list of split moves under moves, not
    the stored string; the other entries are as for the stored game. *)
Theorem format_game_dict_after_pgn (full_name : Player.t -> string)
        (dumps : Game.t -> string) (rows : list Pairing.t)
        (g : Game.t) (po : gmap string Player.t) (W B : Player.t) (m : string) :
  unparse_players_with_color rows (Game.players g) (Game.id g) = Ok po ->
  po !! "white" = Some W -> po !! "black" = Some B ->
  Game.moves g = VStr m ->
  fst (format_game full_name dumps rows "dict"
         (snd (format_game full_name dumps rows "pgn" g)))
  = Ok (Dict (<["moves" := VList (Str.split_scan "," 0 m)]>
                (game_dict full_name W B g))).
Proof.
  intros Hres HW HB Hm.
  rewrite (format_game_pgn full_name dumps rows "pgn" g po W B m Hres HW HB)
    by (discriminate || assumption).
  cbn [snd].
  rewrite (format_game_dict full_name dumps rows "dict"
             (pgn_ready full_name W B (Str.split_scan "," 0 m) g) po W B
             Hres HW HB) by (now left).
  cbn [fst]. reflexivity.
Qed.

Lemma format_game_dict_after_pgn_witness :
  exists d,
    fst (format_game Spec.full_name (fun _ => "") sample_pairings "dict"
           (snd (format_game Spec.full_name (fun _ => "") sample_pairings "pgn"
                   sample_game)))
    = Ok (Dict d)
    /\ d !! "moves" = Some (VList ["e4"; "e5"; "Nf3"]).
Proof.
  eexists. split.
  - apply (format_game_dict_after_pgn Spec.full_name (fun _ => "") sample_pairings
             sample_game
             (Spec.colored (Player.mk 1 "Anatoly" "Karpov") (Player.mk 2 "Garry" "Kasparov"))
             (Player.mk 1 "Anatoly" "Karpov") (Player.mk 2 "Garry" "Kasparov")
             "e4,e5,Nf3"); reflexivity.
  - reflexivity.
Defined.

(** *** Matching *)

Lemma lower_char_idem (c : ascii) : Str.lower_char (Str.lower_char c) = Str.lower_char c.
Proof.
  destruct c as [b0 b1 b2 b3 b4 b5 b6 b7].
  destruct b0, b1, b2, b3, b4, b5, b6, b7; reflexivity.
Qed.

Lemma lower_idem (s : string) : Str.lower (Str.lower s) = Str.lower s.
Proof.
  induction s as [|c s IH]; [reflexivity |].
  cbn [Str.lower]. now rewrite lower_char_idem, IH.
Qed.

Section Matching.
Variable full_name : Player.t -> string.
Variable rows : list Pairing.t.

(** Without a name criterion the pairings are not read. *)
Lemma game_match_no_name (g : Game.t) (args : gmap string string) :
  args !! "name" = None ->
  game_match full_name rows g args
  = Ok (match args !! "eco" with
        | Some eco => String.eqb (Str.lower eco) (Str.lower (Game.eco g))
        | None => true
        end).
Proof.
  intros Hn. unfold game_match. rewrite Hn. cbn [mbind res_bind negb].
  destruct (args !! "eco") as [eco|]; [|reflexivity].
  now destruct (String.eqb (Str.lower eco) (Str.lower (Game.eco g))).
Qed.

Lemma game_match_resolved (g : Game.t) (args : gmap string string)
      (po : gmap string Player.t) (W B : Player.t) :
  unparse_players_with_color rows (Game.players g) (Game.id g) = Ok po ->
  po !! "white" = Some W -> po !! "black" = Some B ->
  game_match full_name rows g args
  = Ok (match args !! "name" with
        | Some name => Str.contains name (Str.lower (full_name W))
                       || Str.contains name (Str.lower (full_name B))
        | None => true
        end
        && match args !! "eco" with
           | Some eco => String.eqb (Str.lower eco) (Str.lower (Game.eco g))
           | None => true
           end).
Proof.
  intros Hres HW HB.
  destruct (args !! "name") as [name|] eqn:Hn;
    [|now rewrite game_match_no_name].
  unfold game_match, getitem. rewrite Hn, Hres. cbn [mbind res_bind].
  rewrite HW. cbn [mbind res_bind].
  destruct (Str.contains name (Str.lower (full_name W)));
    cbn [negb orb andb mbind res_bind].
  - destruct (args !! "eco") as [eco|]; [|reflexivity].
    now destruct (String.eqb (Str.lower eco) (Str.lower (Game.eco g))).
  - rewrite HB. cbn [mbind res_bind].
    destruct (Str.contains name (Str.lower (full_name B))); cbn [negb andb];
      [|reflexivity].
    destruct (args !! "eco") as [eco|]; [|reflexivity].
    now destruct (String.eqb (Str.lower eco) (Str.lower (Game.eco g))).
Qed.

(** With a name criterion, colours that do not resolve make it raise. *)
Lemma game_match_unresolved (g : Game.t) (args : gmap string string) (name : string) :
  args !! "name" = Some name ->
  (forall po, unparse_players_with_color rows (Game.players g) (Game.id g) = Ok po ->
              po !! "white" = None) ->
  game_match full_name rows g args
  = match unparse_players_with_color rows (Game.players g) (Game.id g) with
    | Ok _ => Raise KeyError
    | Raise e => Raise e
    end.
Proof.
  intros Hn H. unfold game_match, getitem. rewrite Hn.
  destruct (unparse_players_with_color rows (Game.players g) (Game.id g))
    as [po | e]; cbn [mbind res_bind]; [|reflexivity].
  now rewrite (H po eq_refl).
Qed.

End Matching.

(** X6: for a game whose colours resolve, [game_match] is the
    conjunction of the criteria that are supplied: the name criterion, as
    given, must occur in the lowered display name of white or of black, and
    the eco criterion must equal the game's ECO code up to letter case; a
    missing key imposes nothing and other keys are ignored.  With a name
    criterion, a game whose colours do not resolve makes it raise. *)
Theorem game_match_conjunction (full_name : Player.t -> string)
        (rows : list Pairing.t) (g : Game.t) (args : gmap string string) :
  (forall po W B,
      unparse_players_with_color rows (Game.players g) (Game.id g) = Ok po ->
      po !! "white" = Some W -> po !! "black" = Some B ->
      game_match full_name rows g args
      = Ok (match args !! "name" with
            | Some name => Str.contains name (Str.lower (full_name W))
                           || Str.contains name (Str.lower (full_name B))
            | None => true
            end
            && match args !! "eco" with
               | Some eco => String.eqb (Str.lower eco) (Str.lower (Game.eco g))
               | None => true
               end))
  /\ (forall name,
        args !! "name" = Some name ->
        (forall po, unparse_players_with_color rows (Game.players g) (Game.id g) = Ok po ->
                    po !! "white" = None) ->
        game_match full_name rows g args
        = match unparse_players_with_color rows (Game.players g) (Game.id g) with
          | Ok _ => Raise KeyError
          | Raise e => Raise e
          end).
Proof.
  split; [apply game_match_resolved | apply game_match_unresolved].
Qed.

(** A name that matches and an ECO code that does not. *)
Lemma game_match_conjunction_witness :
  game_match Spec.full_name sample_pairings sample_game
             (<["eco" := "e4"]> {["name" := "kasp"]})
  = Ok false.
Proof.
  rewrite (proj1 (game_match_conjunction Spec.full_name sample_pairings sample_game
                    (<["eco" := "e4"]> {["name" := "kasp"]}))
             (Spec.colored (Player.mk 1 "Anatoly" "Karpov") (Player.mk 2 "Garry" "Kasparov"))
             (Player.mk 1 "Anatoly" "Karpov") (Player.mk 2 "Garry" "Kasparov"));
    reflexivity.
Defined.

(** X7: without a name criterion [game_match] never raises and never
    reads the players or the pairings; the eco criterion compares up to
    letter case on both sides, so the letter case of the criterion does not
    matter. *)
Theorem game_match_eco_case_insensitive (full_name : Player.t -> string)
        (rows : list Pairing.t) (g : Game.t) (args : gmap string string)
        (eco : string) :
  args !! "name" = None ->
  args !! "eco" = Some eco ->
  game_match full_name rows g args
  = Ok (String.eqb (Str.lower eco) (Str.lower (Game.eco g)))
  /\ (forall eco', Str.lower eco' = Str.lower eco ->
        game_match full_name rows g (<["eco" := eco']> args)
        = game_match full_name rows g args)
  /\ (forall g', Game.eco g' = Game.eco g ->
        game_match full_name rows g' args = game_match full_name rows g args).
Proof.
  intros Hn He. repeat split.
  - now rewrite game_match_no_name, He.
  - intros eco' Hl.
    rewrite !game_match_no_name; rewrite ?lookup_insert_ne by discriminate; try exact Hn.
    now rewrite lookup_insert_eq, He, Hl.
  - intros g' Hg. rewrite !game_match_no_name by exact Hn. now rewrite Hg.
Qed.

Lemma game_match_eco_case_insensitive_witness :
  game_match Spec.full_name [] sample_game {["eco" := "c20"]} = Ok true.
Proof.
  assert (Hn : ({["eco" := "c20"]} : gmap string string) !! "name" = None)
    by reflexivity.
  assert (He : ({["eco" := "c20"]} : gmap string string) !! "eco" = Some "c20")
    by reflexivity.
  rewrite (proj1 (game_match_eco_case_insensitive Spec.full_name [] sample_game
                    {["eco" := "c20"]} "c20" Hn He)).
  reflexivity.
Defined.

(** *** Retrieval *)

Lemma any_key_true (args : gmap string string) :
  any_key args = true <-> exists k v, args !! k = Some v /\ k <> "".
Proof.
  unfold any_key. rewrite existsb_exists. split.
  - intros ([k v] & Hin & Hk). exists k, v. split.
    + apply elem_of_map_to_list. now apply list_elem_of_In.
    + cbn [fst] in Hk. apply negb_true_iff, String.eqb_neq in Hk. exact Hk.
  - intros (k & v & Hkv & Hk). exists (k, v). split.
    + apply list_elem_of_In. now apply elem_of_map_to_list.
    + cbn [fst]. now apply negb_true_iff, String.eqb_neq.
Qed.

Lemma any_key_false (args : gmap string string) :
  (forall k v, args !! k = Some v -> k = "") -> any_key args = false.
Proof.
  intros H. apply not_true_is_false. rewrite any_key_true.
  intros (k & v & Hkv & Hk). apply Hk. exact (H k v Hkv).
Qed.

Lemma sublist_filter_bool {A} (p : A -> bool) (l : list A) :
  sublist (List.filter p l) l.
Proof.
  induction l as [|x l IH]; cbn [List.filter]; [constructor |].
  destruct (p x); now constructor.
Qed.

Section Retrieval.
Variable full_name : Player.t -> string.
Variable rows : list Pairing.t.

(** The games for which the predicate returns true. *)
Lemma filter_match_ok (args : gmap string string) (games l : list Game.t) :
  filter_match full_name rows args games = Ok l ->
  Forall (fun g => exists b, game_match full_name rows g args = Ok b) games
  /\ l = List.filter
           (fun g => match game_match full_name rows g args with
                     | Ok true => true
                     | _ => false
                     end) games.
Proof.
  revert l. induction games as [|g games IH]; intros l; cbn [filter_match List.filter].
  - intros [= <-]. split; [constructor | reflexivity].
  - destruct (game_match full_name rows g args) as [b | e] eqn:Hg;
      cbn [mbind res_bind]; [|discriminate].
    destruct (filter_match full_name rows args games) as [kept | e];
      cbn [mbind res_bind]; [|discriminate].
    intros [= <-]. destruct (IH kept eq_refl) as [Hall ->].
    split; [constructor; eauto |]. now destruct b.
Qed.

Lemma filter_match_total (args : gmap string string) (p : Game.t -> bool)
      (games : list Game.t) :
  Forall (fun g => game_match full_name rows g args = Ok (p g)) games ->
  filter_match full_name rows args games = Ok (List.filter p games).
Proof.
  induction 1 as [|g games Hg _ IH]; cbn [filter_match List.filter]; [reflexivity |].
  rewrite Hg, IH. cbn [mbind res_bind]. reflexivity.
Qed.

Lemma filter_match_abort (args : gmap string string) (done : list Game.t)
      (g : Game.t) (rest : list Game.t) (e : exn) :
  Forall (fun x => exists b, game_match full_name rows x args = Ok b) done ->
  game_match full_name rows g args = Raise e ->
  filter_match full_name rows args (done ++ g :: rest) = Raise e.
Proof.
  intros Hdone Hg. induction Hdone as [|x done [b Hx] _ IH]; cbn [app filter_match].
  - now rewrite Hg.
  - rewrite Hx, IH. reflexivity.
Qed.

End Retrieval.

(** X8: with no criterion at all, or when the only key of the criteria
    is the empty string, [get_games] returns all the games as fetched,
    without matching any of them and so without reading any pairing. *)
Theorem get_games_without_criteria (full_name : Player.t -> string)
        (rows : list Pairing.t) (all_games : list Game.t)
        (args : gmap string string) :
  (forall k v, args !! k = Some v -> k = "") ->
  get_games full_name rows all_games args = Ok all_games.
Proof.
  intros H. unfold get_games. now rewrite (any_key_false args H).
Qed.

Lemma get_games_without_criteria_witness :
  get_games Spec.full_name [] [sample_game] {["" := "Kasp"]} = Ok [sample_game].
Proof.
  apply (get_games_without_criteria Spec.full_name [] [sample_game] {["" := "Kasp"]}).
  intros k v H. apply lookup_singleton_Some in H. symmetry. apply H.
Defined.

(** X9: what [get_games] returns is a sublist of the fetched games, in
    their original order; when some key of the criteria is non-empty, a
    game is returned exactly when it was fetched and [game_match] is true
    for it, and then [game_match] has raised for no fetched game. *)
Theorem get_games_stable_filter (full_name : Player.t -> string)
        (rows : list Pairing.t) (all_games l : list Game.t)
        (args : gmap string string) :
  get_games full_name rows all_games args = Ok l ->
  sublist l all_games
  /\ (any_key args = true ->
      Forall (fun g => exists b, game_match full_name rows g args = Ok b) all_games
      /\ forall g, g ∈ l <-> g ∈ all_games
                             /\ game_match full_name rows g args = Ok true).
Proof.
  unfold get_games. destruct (any_key args) eqn:Hany.
  - intros H. apply filter_match_ok in H as [Hall ->].
    split; [apply sublist_filter_bool |]. intros _. split; [exact Hall |].
    intros g. rewrite !list_elem_of_In, filter_In.
    split; intros [Hin Hg]; (split; [exact Hin |]).
    + destruct (game_match full_name rows g args) as [[|]|]; congruence.
    + now rewrite Hg.
  - intros [= <-]. split; [reflexivity | discriminate].
Qed.

Lemma get_games_stable_filter_witness :
  let g2 := Game.mk 2 "Candidates" "Paris" "1990.01.01" "2" "0-1" "2600" "2650"
                    (VStr "d4,d5") "D4" [] ∅ in
  sublist [sample_game] [g2; sample_game].
Proof.
  intros g2.
  refine (proj1 (get_games_stable_filter Spec.full_name sample_pairings
                   [g2; sample_game] [sample_game] {["eco" := "c20"]} _)).
  vm_compute. reflexivity.
Defined.

Lemma filter_match_raises (full_name : Player.t -> string) (rows : list Pairing.t)
      (args : gmap string string) (games : list Game.t) (g : Game.t) (e : exn) :
  g ∈ games ->
  game_match full_name rows g args = Raise e ->
  exists e', filter_match full_name rows args games = Raise e'.
Proof.
  intros Hin Hg. induction games as [|x games IH]; [now apply elem_of_nil in Hin |].
  cbn [filter_match].
  destruct (game_match full_name rows x args) as [b | ex] eqn:Hx;
    cbn [mbind res_bind]; [|eauto].
  apply elem_of_cons in Hin as [-> | Hin]; [congruence |].
  destruct (IH Hin) as [e' ->]. eauto.
Qed.

(** X10: with an eco criterion and no name criterion, [get_games]
    returns, in their original order, exactly the fetched games whose ECO
    code equals the criterion up to letter case; it never raises, whatever
    the players and pairings of the games are. *)
Theorem get_games_by_eco (full_name : Player.t -> string)
        (rows : list Pairing.t) (all_games : list Game.t)
        (args : gmap string string) (eco : string) :
  args !! "name" = None ->
  args !! "eco" = Some eco ->
  get_games full_name rows all_games args
  = Ok (List.filter
          (fun g => String.eqb (Str.lower eco) (Str.lower (Game.eco g)))
          all_games).
Proof.
  intros Hn He. unfold get_games.
  assert (Hany : any_key args = true).
  { apply any_key_true. exists "eco", eco. split; [exact He | discriminate]. }
  rewrite Hany. apply filter_match_total.
  apply Forall_forall. intros g _. now rewrite game_match_no_name, He.
Qed.

Lemma get_games_by_eco_witness :
  let g2 := Game.mk 2 "Candidates" "Paris" "1990.01.01" "2" "0-1" "2600" "2650"
                    (VStr "d4,d5") "D4" [] ∅ in
  get_games Spec.full_name [] [g2; sample_game] {["eco" := "e4"]} = Ok [].
Proof.
  intros g2.
  assert (Hn : ({["eco" := "e4"]} : gmap string string) !! "name" = None)
    by reflexivity.
  assert (He : ({["eco" := "e4"]} : gmap string string) !! "eco" = Some "e4")
    by reflexivity.
  rewrite (get_games_by_eco Spec.full_name [] [g2; sample_game]
             {["eco" := "e4"]} "e4" Hn He).
  reflexivity.
Defined.

(** X11: with a name criterion, one fetched game whose colours do not
    resolve (resolution raises, or returns a mapping without white) makes
    [get_games] raise: no game is returned at all. *)
Theorem get_games_name_unresolved (full_name : Player.t -> string)
        (rows : list Pairing.t) (all_games : list Game.t)
        (args : gmap string string) (name : string) (g : Game.t) :
  args !! "name" = Some name ->
  g ∈ all_games ->
  (forall po, unparse_players_with_color rows (Game.players g) (Game.id g) = Ok po ->
              po !! "white" = None) ->
  exists e, get_games full_name rows all_games args = Raise e.
Proof.
  intros Hn Hin Hg. unfold get_games.
  assert (Hany : any_key args = true).
  { apply any_key_true. exists "name", name. split; [exact Hn | discriminate]. }
  rewrite Hany.
  pose proof (game_match_unresolved full_name rows g args name Hn Hg) as Hm.
  destruct (unparse_players_with_color rows (Game.players g) (Game.id g));
    eapply filter_match_raises; eauto.
Qed.

(** One game resolves, the other has two black pairings. *)
Lemma get_games_name_unresolved_witness :
  let g2 := Game.set_id 2 sample_game in
  let rows := sample_pairings
              ++ [Pairing.mk 3 2 1 "black"; Pairing.mk 4 2 2 "black"] in
  exists e, get_games Spec.full_name rows [sample_game; g2] {["name" := "karpov"]}
            = Raise e.
Proof.
  intros g2 rows.
  apply (get_games_name_unresolved Spec.full_name rows [sample_game; g2]
           {["name" := "karpov"]} "karpov" g2).
  - reflexivity.
  - apply list_elem_of_further, list_elem_of_here.
  - intros po [= <-]. reflexivity.
Defined.

(** X12: [unparse_game] returns nothing when the parser holds no game id
    or the id 0, without fetching anything; it raises [AttributeError] when
    no game has the id; otherwise it returns what [format_game] returns for
    the fetched game. *)
Theorem unparse_game_cases (full_name : Player.t -> string)
        (dumps : Game.t -> string) (rows : list Pairing.t)
        (query_get : Z -> option Game.t) (self : GameParser.t) (rt : string) :
  (game_id self = None \/ game_id self = Some 0%Z ->
   unparse_game full_name dumps rows query_get self rt = Ok None)
  /\ (forall i, game_id self = Some i -> i <> 0%Z -> query_get i = None ->
        unparse_game full_name dumps rows query_get self rt = Raise AttributeError)
  /\ (forall i game, game_id self = Some i -> i <> 0%Z -> query_get i = Some game ->
        unparse_game full_name dumps rows query_get self rt
        = match fst (format_game full_name dumps rows rt game) with
          | Ok out => Ok (Some out)
          | Raise e => Raise e
          end).
Proof.
  unfold unparse_game. repeat split.
  - intros [-> | ->]; reflexivity.
  - intros i -> Hi Hq. cbn [not_ default from_option id]. apply Z.eqb_neq in Hi. now rewrite Hi, Hq.
  - intros i game -> Hi Hq. cbn [not_ default from_option id]. apply Z.eqb_neq in Hi.
    now rewrite Hi, Hq.
Qed.

(** A parser built from text alone holds no game id. *)
Lemma unparse_game_cases_witness :
  unparse_game Spec.full_name (fun _ => "") sample_pairings
               (fun _ => Some sample_game) (sample_parser [sample_parsed]) "dict"
  = Ok None.
Proof.
  apply (proj1 (unparse_game_cases Spec.full_name (fun _ => "") sample_pairings
                  (fun _ => Some sample_game) (sample_parser [sample_parsed]) "dict")).
  left. reflexivity.
Defined.

(** *** Construction with a delimiter *)

Lemma prefix_char (c a : ascii) (s : string) :
  String.prefix (String c "") (String a s) = Ascii.eqb a c.
Proof.
  cbn [String.prefix]. destruct (ascii_dec c a) as [<- | Hne].
  - rewrite Ascii.eqb_refl. now destruct s.
  - symmetry. apply Ascii.eqb_neq. congruence.
Qed.

Lemma split_scan_nonempty (sep : string) (skip : nat) (s : string) :
  Str.split_scan sep skip s <> [].
Proof.
  revert skip. induction s as [|a s IH]; intros skip; cbn [Str.split_scan];
    [discriminate |].
  destruct skip; [|apply IH].
  destruct (String.prefix sep (String a s)); [discriminate |].
  unfold Str.push. destruct (Str.split_scan sep 0 s); discriminate.
Qed.

Lemma join_push (sep : string) (a : ascii) (l : list string) :
  l <> [] -> Str.join sep (Str.push a l) = String a (Str.join sep l).
Proof.
  destruct l as [|h [|h' t]]; [congruence | reflexivity | reflexivity].
Qed.

(** Splitting on a one-character delimiter and joining with newlines
    replaces the delimiter by newlines. *)
Lemma join_split_char (c : ascii) (s : string) :
  Str.join nl (Str.split_scan (String c "") 0 s) = newline_for c s.
Proof.
  induction s as [|a s IH]; [reflexivity |].
  cbn [Str.split_scan newline_for]. rewrite prefix_char.
  destruct (Ascii.eqb a c).
  - cbn [String.length Nat.sub].
    rewrite join_cons by apply split_scan_nonempty. now rewrite IH.
  - rewrite join_push by apply split_scan_nonempty. now rewrite IH.
Qed.

Lemma newline_for_newline (s : string) : newline_for (ascii_of_nat 10) s = s.
Proof.
  induction s as [|a s IH]; [reflexivity |].
  cbn [newline_for]. rewrite IH.
  destruct (Ascii.eqb_spec a (ascii_of_nat 10)) as [-> | _]; reflexivity.
Qed.

(** X13: with a delimiter given, nothing is trimmed.  An empty delimiter
    makes the construction raise [ValueError]; a one-character delimiter is
    replaced by a newline wherever it occurs; with the newline itself as
    delimiter the text handed to the reader is the input, verbatim. *)
Theorem init_with_delimiter (loads : string -> res (list ParsedGame.t))
        (s : string) (gid : option Z) (v : bool) :
  s <> "" ->
  init loads (Some s) gid v (Some "") = Raise ValueError
  /\ (forall c, init_pgn (Some s) (Some (String c "")) = Ok (Some (newline_for c s)))
  /\ init_pgn (Some s) (Some nl) = Ok (Some s)
  /\ init loads (Some s) gid v (Some nl)
     = match loads s with
       | Ok games => Ok (mk (Some s) gid (Some games) v)
       | Raise e => Raise e
       end.
Proof.
  intros Hs. destruct s as [|a s]; [congruence |].
  assert (Hc : forall c, init_pgn (Some (String a s)) (Some (String c ""))
                         = Ok (Some (newline_for c (String a s)))).
  { intros c. unfold init_pgn, Str.split. cbn [mbind res_bind].
    now rewrite join_split_char. }
  assert (Hnl : init_pgn (Some (String a s)) (Some nl) = Ok (Some (String a s))).
  { unfold nl at 1. rewrite Hc. now rewrite newline_for_newline. }
  repeat split; [exact Hc | exact Hnl |].
  unfold init. rewrite Hnl. cbn [mbind res_bind].
  destruct (loads (String a s)); reflexivity.
Qed.

Lemma init_with_delimiter_witness :
  init_pgn (Some "[Event x]|1. e4 e5") (Some "|")
  = Ok (Some ("[Event x]" ++ nl ++ "1. e4 e5")%string).
Proof.
  refine (proj1 (proj2 (init_with_delimiter (fun _ => Ok []) "[Event x]|1. e4 e5"
                          None false _)) "|"%char).
  discriminate.
Defined.

(** X14: a parser built, without delimiter, from no text, from the empty
    string or from whitespace only never calls the reader, holds no games,
    and its [add_games] does nothing: no storage operation is made, not
    even in a session whose next storage operation would fail. *)
Theorem init_blank_adds_nothing (loads : string -> res (list ParsedGame.t))
        (pgn_string : option string) (gid : option Z) (v : bool) :
  match pgn_string with
  | Some s => Str.strip s = ""
  | None => True
  end ->
  let text := match pgn_string with
              | Some (String _ _) => Some ""
              | _ => None
              end in
  init loads pgn_string gid v None = Ok (mk text gid None v)
  /\ forall st : Session, add_games (mk text gid None v) st = (Ok tt, st).
Proof.
  intros Hblank text. split; [|reflexivity].
  destruct pgn_string as [[|a s]|]; try reflexivity.
  unfold init, init_pgn. cbn [mbind res_bind].
  rewrite join_split_ws. unfold Spec.normalize. rewrite Hblank. reflexivity.
Qed.

Lemma init_blank_adds_nothing_witness :
  init (fun _ => Raise ValueError) (Some "  ") None false None
  = Ok (mk (Some "") None None false).
Proof.
  apply (proj1 (init_blank_adds_nothing (fun _ => Raise ValueError) (Some "  ")
                  None false eq_refl)).
Defined.

(** *** Parsed names *)

Lemma lstrip_idem (s : string) : Str.lstrip (Str.lstrip s) = Str.lstrip s.
Proof.
  induction s as [|c s IH]; [reflexivity |].
  cbn [Str.lstrip]. destruct (Str.isspace c) eqn:Hc; [exact IH |].
  cbn [Str.lstrip]. now rewrite Hc.
Qed.

Lemma rstrip_idem (s : string) : Str.rstrip (Str.rstrip s) = Str.rstrip s.
Proof.
  induction s as [|c s IH]; [reflexivity |].
  rewrite rstrip_cons. destruct (Str.rstrip s) as [|a r] eqn:Hr.
  - destruct (Str.isspace c) eqn:Hc; [reflexivity |].
    cbn [Str.rstrip]. now rewrite Hc.
  - rewrite rstrip_cons, IH. reflexivity.
Qed.

(** Dropping leading whitespace keeps a string free of trailing whitespace. *)
Lemma rstrip_lstrip (r : string) :
  Str.rstrip r = r -> Str.rstrip (Str.lstrip r) = Str.lstrip r.
Proof.
  induction r as [|c r IH]; [reflexivity |].
  intros H. cbn [Str.lstrip]. destruct (Str.isspace c) eqn:Hc; [|exact H].
  apply IH. rewrite rstrip_cons, Hc in H.
  destruct (Str.rstrip r) as [|a r']; [discriminate H | congruence].
Qed.

Lemma strip_idem (s : string) : Str.strip (Str.strip s) = Str.strip s.
Proof.
  unfold Str.strip.
  rewrite (rstrip_lstrip (Str.rstrip s)) by apply rstrip_idem.
  apply lstrip_idem.
Qed.

Lemma comma_free_nil : Spec.comma_free "".
Proof. reflexivity. Qed.

Lemma comma_free_String (c : ascii) (s : string) :
  Ascii.eqb c "," = false -> Spec.comma_free s -> Spec.comma_free (String c s).
Proof.
  unfold Spec.comma_free. intros Hc Hs. cbn [Str.contains].
  now rewrite prefix_comma, Hc, Hs.
Qed.

Lemma before_comma_is_free (s : string) : Spec.comma_free (Spec.before_comma s).
Proof.
  induction s as [|c s IH]; [reflexivity |].
  cbn [Spec.before_comma]. destruct (Ascii.eqb c ",") eqn:Hc; [reflexivity |].
  now apply comma_free_String.
Qed.

Lemma lstrip_comma_free (s : string) :
  Spec.comma_free s -> Spec.comma_free (Str.lstrip s).
Proof.
  induction s as [|c s IH]; intros H; [exact H |].
  cbn [Str.lstrip]. destruct (Str.isspace c); [|exact H].
  apply IH. now apply comma_free_cons in H.
Qed.

Lemma rstrip_comma_free (s : string) :
  Spec.comma_free s -> Spec.comma_free (Str.rstrip s).
Proof.
  induction s as [|c s IH]; intros H; [exact H |].
  apply comma_free_cons in H as [Hc Hs]. rewrite rstrip_cons.
  specialize (IH Hs). destruct (Str.rstrip s) as [|a r].
  - destruct (Str.isspace c); [reflexivity |].
    now apply comma_free_String.
  - now apply comma_free_String.
Qed.

Lemma strip_comma_free (s : string) :
  Spec.comma_free s -> Spec.comma_free (Str.strip s).
Proof. intros H. now apply lstrip_comma_free, rstrip_comma_free. Qed.

(** X15: whatever string is parsed, the two components of the name are
    already trimmed (trimming them again changes nothing) and contain no
    comma. *)
Theorem parse_player_name_trimmed (s : string) :
  exists d, parse_player_name s = Ok d
            /\ Str.strip (first_name d) = first_name d
            /\ Str.strip (last_name d) = last_name d
            /\ Spec.comma_free (first_name d)
            /\ Spec.comma_free (last_name d).
Proof.
  exists (parsed_name s). split; [apply parse_player_name_eq |].
  unfold parsed_name. cbn [first_name last_name].
  destruct (Spec.after_comma s) as [rest|];
    repeat split;
    auto using strip_idem, strip_comma_free, before_comma_is_free, comma_free_nil.
Qed.

(** *** Rows are only ever added *)

Lemma extends_refl (st : Store) : extends st st.
Proof. repeat split; exists []; now rewrite app_nil_r. Qed.

Lemma extends_trans (st1 st2 st3 : Store) :
  extends st1 st2 -> extends st2 st3 -> extends st1 st3.
Proof.
  intros ([k1 H1] & [k2 H2] & [k3 H3]) ([l1 G1] & [l2 G2] & [l3 G3]).
  repeat split; eexists.
  - rewrite G1, H1, <- app_assoc. reflexivity.
  - rewrite G2, H2, <- app_assoc. reflexivity.
  - rewrite G3, H3, <- app_assoc. reflexivity.
Qed.

Lemma insert_row_extends (r : pending_row) (st : Store) :
  extends st (snd (insert_row r st)).
Proof.
  destruct r; cbn [insert_row snd]; repeat split; cbn [player_rows game_rows pairing_rows];
    first [ now eexists | exists []; now rewrite app_nil_r ].
Qed.

Lemma flush_extends (q : list pending_row) (st : Store) :
  extends st (snd (flush q st)).
Proof.
  revert st. induction q as [|r q IH]; intros st; cbn [flush]; [apply extends_refl |].
  pose proof (insert_row_extends r st) as H1.
  destruct (insert_row r st) as [i st1]. cbn [snd] in H1.
  pose proof (IH st1) as H2. destruct (flush q st1) as [ids st2]. cbn [snd] in *.
  now apply (extends_trans st st1 st2).
Qed.

Lemma after_players_extends (game : ParsedGame.t) (st : Store) :
  extends st (after_players game st).
Proof. apply flush_extends. Qed.

Lemma after_game_extends (game : ParsedGame.t) (st : Store) :
  extends st (after_game game st).
Proof.
  apply (extends_trans st (after_players game st));
    [apply after_players_extends | apply insert_row_extends].
Qed.

Lemma after_pairings_extends (game : ParsedGame.t) (st : Store) :
  extends st (after_pairings game st).
Proof.
  apply (extends_trans st (after_game game st));
    [apply after_game_extends | apply flush_extends].
Qed.

Lemma after_batch_extends (games : list ParsedGame.t) (st : Store) :
  extends st (after_batch games st).
Proof.
  revert st. induction games as [|game games IH]; intros st; [apply extends_refl |].
  rewrite after_batch_cons.
  apply (extends_trans st (after_pairings game st));
    [apply after_pairings_extends | apply IH].
Qed.

(** X16: [add_games] only ever adds rows: however the batch ends, with
    or without a storage failure, each committed table consists of its
    former rows, unchanged and in the same order, followed by new ones; no
    Player, Game or Pairing row is updated or deleted. *)
Theorem add_games_only_adds (self : GameParser.t) (s : Session) :
  pending s = [] ->
  extends (committed s) (committed (snd (add_games self s))).
Proof.
  intros Hp. destruct (parsed_games self) as [games|] eqn:Hgames.
  - rewrite (add_games_for_each self games s Hgames).
    pose proof (for_each_outcome games s Hp) as H. unfold wp in H.
    destruct (for_each games add_one s) as [[[] | e] s']; cbn [fst snd outcome] in *.
    + destruct H as (_ & _ & ->). apply after_batch_extends.
    + destruct H as (_ & _ & _ & done & game & rest & -> & Hcut).
      pose proof (after_batch_extends done (committed s)) as Hd.
      destruct Hcut as [-> | [-> | ->]]; [exact Hd | |];
        eapply extends_trans; eauto using after_players_extends, after_game_extends.
  - unfold add_games. rewrite Hgames. apply extends_refl.
Qed.

Lemma add_games_only_adds_witness :
  extends (mkStore [] [] [])
          (committed (snd (add_games (sample_parser [sample_parsed; mirror_parsed])
                                     (empty_session (Some 7))))).
Proof.
  apply (add_games_only_adds (sample_parser [sample_parsed; mirror_parsed])
           (empty_session (Some 7))).
  reflexivity.
Defined.

(** *** Keys and lookups *)

Lemma lt_next_id (ids : list Z) (i : Z) : In i ids -> (i < next_id ids)%Z.
Proof.
  unfold next_id. induction ids as [|j ids IH]; [intros [] |].
  cbn [fold_right]. intros [-> | Hin]; [lia |]. specialize (IH Hin). lia.
Qed.

Lemma next_id_fresh (ids : list Z) : ~ In (next_id ids) ids.
Proof. intros H. apply lt_next_id in H. lia. Qed.

Lemma found_id_found_in (d : name_dict) (st : Store) :
  found_id d st = found_in d (player_rows st).
Proof. reflexivity. Qed.

Lemma found_in_app (d : name_dict) (rows k : list Player.t) :
  found_in d (rows ++ k)
  = match found_in d rows with
    | Some i => Some i
    | None => found_in d k
    end.
Proof.
  unfold found_in. rewrite filter_app.
  now destruct (filter _ rows).
Qed.

Lemma found_in_one (d : name_dict) (i : Z) (f l : string) :
  found_in d [Player.mk i f l]
  = if decide (f = first_name d /\ l = last_name d) then Some i else None.
Proof.
  unfold found_in. rewrite filter_cons. cbn [Player.first_name Player.last_name].
  now destruct (decide (f = first_name d /\ l = last_name d)).
Qed.

Lemma found_in_self (d : name_dict) (i : Z) :
  found_in d [Player.mk i (first_name d) (last_name d)] = Some i.
Proof. rewrite found_in_one. now rewrite decide_True by auto. Qed.

Lemma found_in_other (d d' : name_dict) (i : Z) :
  d' <> d -> found_in d [Player.mk i (first_name d') (last_name d')] = None.
Proof.
  intros Hne. rewrite found_in_one. rewrite decide_False; [reflexivity |].
  intros [H1 H2]. apply Hne. destruct d, d'. cbn in *. congruence.
Qed.

(** The row behind a key that was found. *)
Lemma found_in_row (d : name_dict) (rows : list Player.t) (i : Z) :
  found_in d rows = Some i ->
  exists p, In p rows /\ Player.id p = i
            /\ name_of p = (first_name d, last_name d).
Proof.
  unfold found_in.
  destruct (filter _ rows) as [|p l] eqn:Hq; [discriminate |].
  intros [= <-]. exists p.
  assert (Hin : p ∈ p :: l) by apply list_elem_of_here.
  rewrite <- Hq in Hin. apply list_elem_of_filter in Hin as [[H1 H2] Hin].
  split; [now apply list_elem_of_In |]. split; [reflexivity |].
  unfold name_of. now rewrite H1, H2.
Qed.

(** A key that was found stays found when rows are added. *)
Lemma found_in_stays (d : name_dict) (rows k : list Player.t) (i : Z) :
  found_in d rows = Some i -> found_in d (rows ++ k) = Some i.
Proof. intros H. now rewrite found_in_app, H. Qed.

Lemma pairing_first_stays (rows k : list Pairing.t) (pid gid : Z) (r : Pairing.t) :
  db.pairing_first rows pid gid = Some r ->
  db.pairing_first (rows ++ k) pid gid = Some r.
Proof.
  unfold db.pairing_first. rewrite filter_app.
  now destruct (filter _ rows).
Qed.

Lemma pairing_first_fresh (rows k : list Pairing.t) (pid gid : Z) :
  Forall (fun p => Pairing.game_id p <> gid) rows ->
  db.pairing_first (rows ++ k) pid gid = db.pairing_first k pid gid.
Proof.
  intros H. unfold db.pairing_first. rewrite filter_app.
  replace (filter _ rows) with (@nil Pairing.t); [reflexivity |].
  symmetry. induction H as [|p rows Hp _ IH]; [reflexivity |].
  rewrite filter_cons, decide_False; [exact IH | tauto].
Qed.

Lemma NoDup_id_eq (rows : list Player.t) (p q : Player.t) :
  NoDup (map Player.id rows) -> In p rows -> In q rows ->
  Player.id p = Player.id q -> p = q.
Proof.
  induction rows as [|x rows IH]; [intros _ [] |].
  cbn [map]. intros Hnd Hp Hq Heq. apply NoDup_cons in Hnd as [Hx Hnd].
  rewrite list_elem_of_In in Hx.
  destruct Hp as [-> | Hp], Hq as [-> | Hq]; auto.
  - exfalso. apply Hx. rewrite Heq. now apply in_map.
  - exfalso. apply Hx. rewrite <- Heq. now apply in_map.
Qed.

Lemma not_found_some (d : name_dict) (st : Store) (i : Z) :
  unique_names st -> found_id d st = Some i -> not_ (Some i) = false.
Proof.
  intros [_ Hpos] Hf. apply found_id_some in Hf as (p & Hin & <-).
  rewrite Forall_forall in Hpos. specialize (Hpos p Hin).
  cbn [not_]. apply Z.eqb_neq. lia.
Qed.

(** After the commit of [add_players] both names are found, under the
    keys it returns. *)
Lemma new_players_found (w b : name_dict) (st : Store) :
  unique_names st -> w <> b ->
  found_in w (player_rows (snd (flush (new_players w b st) st)))
  = Some (white (player_ids w b st))
  /\ found_in b (player_rows (snd (flush (new_players w b st) st)))
     = Some (black (player_ids w b st)).
Proof.
  intros Hu Hd. unfold player_ids, new_players.
  pose proof (not_found_some w st) as Hsw.
  pose proof (not_found_some b st) as Hsb.
  destruct (found_id w st) as [i|] eqn:Hw; destruct (found_id b st) as [j|] eqn:Hb;
    rewrite ?(Hsw _ Hu eq_refl), ?(Hsb _ Hu eq_refl);
    rewrite found_id_found_in in Hw, Hb;
    cbn [not_ app flush insert_row fst snd player_rows nth default from_option id
         white black];
    rewrite ?found_in_app, ?Hw, ?Hb, ?found_in_self;
    rewrite ?(found_in_other b w) by exact Hd;
    rewrite ?found_in_self; split; reflexivity.
Qed.

Lemma new_players_unique_names (w b : name_dict) (st : Store) :
  unique_names st -> w <> b ->
  unique_names (snd (flush (new_players w b st) st)).
Proof.
  intros Hu Hd. unfold new_players.
  pose proof (not_found_id w st Hu) as Hw.
  pose proof (not_found_id b st Hu) as Hb.
  unfold unique_names in *.
  destruct (not_ (found_id w st)), (not_ (found_id b st));
    cbn [app flush insert_row snd fst player_rows game_rows pairing_rows].
  - apply unique_rows_add.
    + apply unique_rows_add; auto using next_id_pos.
    + apply next_id_pos.
    + rewrite map_app. cbn [map].
      rewrite elem_of_app, list_elem_of_singleton. intros [H | H].
      * now apply Hb.
      * apply Hd. destruct w, b. unfold name_of in H. cbn in H. congruence.
  - apply unique_rows_add; auto using next_id_pos.
  - apply unique_rows_add; auto using next_id_pos.
  - exact Hu.
Qed.

(** Once both names are found under positive keys, nothing is queued. *)
Lemma new_players_none (w b : name_dict) (st : Store) (i j : Z) :
  unique_names st ->
  found_id w st = Some i -> found_id b st = Some j ->
  new_players w b st = [] /\ player_ids w b st = mk_ids i j.
Proof.
  intros Hu Hw Hb. unfold new_players, player_ids.
  rewrite Hw, Hb, (not_found_some w st i Hu Hw), (not_found_some b st j Hu Hb).
  split; reflexivity.
Qed.

(** Without a fuse, a lookup returns the key found and changes nothing. *)
Lemma player_in_db_run (player : player_arg) (s : Session) :
  fuse s = None ->
  player_in_db player s
  = (Ok (found_id match player with
                  | Stringified n => parsed_name n
                  | Parsed d => d
                  end (committed s)), s).
Proof.
  intros Hf. destruct s as [st q f]. cbn [fuse] in Hf. subst f.
  unfold player_in_db.
  assert (Hd : match player with
               | Stringified n => parse_player_name n
               | Parsed d => Ok d
               end = Ok match player with
                        | Stringified n => parsed_name n
                        | Parsed d => d
                        end)
    by (destruct player; [apply parse_player_name_eq | reflexivity]).
  rewrite Hd. unfold found_id.
  set (d := match player with Stringified n => parsed_name n | Parsed d => d end).
  unfold bind, lift, db.count, db.first, db.io, bind, get, ret, raise.
  cbn [fuse committed].
  destruct (db.player_filter_by (first_name d) (last_name d) st) as [|p l] eqn:Hq;
    cbn [length Nat.ltb Nat.leb]; [reflexivity |].
  cbn [fuse committed]. now rewrite Hq.
Qed.

(** Without a fuse and with an empty queue, [add_players] commits the
    new players and returns their keys. *)
Lemma add_players_run (w b : string) (s : Session) :
  pending s = [] -> fuse s = None ->
  add_players w b s
  = (Ok (player_ids (parsed_name w) (parsed_name b) (committed s)),
     mkSession (snd (flush (new_players (parsed_name w) (parsed_name b) (committed s))
                           (committed s))) [] None).
Proof.
  intros Hp Hf. pose proof (add_players_outcome w b s Hp) as H. unfold wp in H.
  destruct (add_players w b s) as [[ids | e] s']; cbn [fst snd outcome] in H.
  - destruct H as (Hp' & Hf' & -> & Hc). destruct s' as [st' q' f'].
    cbn [pending fuse committed] in *. rewrite Hp', (Hf' Hf), Hc. reflexivity.
  - destruct H as (_ & Hn & _). contradiction.
Qed.

(** X17: [add_players] makes sure both players exist and returns their
    keys.  From a table with one row per name and positive keys, for two
    different names and without storage failure: afterwards
    [player_in_db] finds each name under the key returned for it, the
    table still has one row per name, and a second [add_players] with the
    same names adds no row and returns the same keys. *)
Theorem add_players_ensures (w b : string) (s : Session) :
  pending s = [] -> fuse s = None ->
  unique_names (committed s) ->
  parsed_name w <> parsed_name b ->
  exists ids s',
    add_players w b s = (Ok ids, s')
    /\ player_in_db (Stringified w) s' = (Ok (Some (white ids)), s')
    /\ player_in_db (Stringified b) s' = (Ok (Some (black ids)), s')
    /\ unique_names (committed s')
    /\ add_players w b s' = (Ok ids, s').
Proof.
  intros Hp Hf Hu Hd. eexists _, _. split; [apply (add_players_run w b s Hp Hf) |].
  set (st' := snd (flush (new_players (parsed_name w) (parsed_name b) (committed s))
                         (committed s))).
  destruct (new_players_found (parsed_name w) (parsed_name b) (committed s) Hu Hd)
    as [Hw Hb]. fold st' in Hw, Hb.
  pose proof (new_players_unique_names (parsed_name w) (parsed_name b) (committed s)
                Hu Hd) as Hu'. fold st' in Hu'.
  rewrite !player_in_db_run by reflexivity. cbn [committed].
  rewrite !found_id_found_in, Hw, Hb.
  split; [reflexivity |]. split; [reflexivity |]. split; [exact Hu' |].
  rewrite add_players_run by reflexivity. cbn [committed].
  destruct (new_players_none (parsed_name w) (parsed_name b) st' _ _ Hu' Hw Hb)
    as [-> ->].
  cbn [flush snd].
  now destruct (player_ids (parsed_name w) (parsed_name b) (committed s)).
Qed.

Lemma add_players_ensures_witness :
  exists ids s',
    add_players "Karpov, Anatoly" "Kasparov, Garry" (empty_session None) = (Ok ids, s')
    /\ player_in_db (Stringified "Karpov, Anatoly") s' = (Ok (Some (white ids)), s')
    /\ player_in_db (Stringified "Kasparov, Garry") s' = (Ok (Some (black ids)), s')
    /\ unique_names (committed s')
    /\ add_players "Karpov, Anatoly" "Kasparov, Garry" s' = (Ok ids, s').
Proof.
  apply (add_players_ensures "Karpov, Anatoly" "Kasparov, Garry" (empty_session None)).
  - reflexivity.
  - reflexivity.
  - split; constructor.
  - vm_compute. discriminate.
Defined.

(** *** What one game adds *)

Lemma after_pairings_rows (game : ParsedGame.t) (st : Store) :
  let ids := player_ids (parsed_name (ParsedGame.white game))
                        (parsed_name (ParsedGame.black game)) st in
  let gid := next_id (map Game.id (game_rows st)) in
  player_rows (after_pairings game st) = player_rows (after_players game st)
  /\ game_rows (after_pairings game st)
     = game_rows st ++ [Game.set_id gid (new_game game)]
  /\ exists i j,
       pairing_rows (after_pairings game st)
       = pairing_rows st ++ [Pairing.mk i gid (black ids) "black";
                             Pairing.mk j gid (white ids) "white"].
Proof.
  intros ids gid. subst ids gid.
  destruct (new_players_rows (parsed_name (ParsedGame.white game))
              (parsed_name (ParsedGame.black game)) st) as [Hg Hp].
  unfold after_pairings, after_game, after_players.
  cbn [flush insert_row snd fst player_rows game_rows pairing_rows].
  rewrite Hg, Hp, <- app_assoc. cbn [app]. eauto.
Qed.

Lemma new_players_keys (w b : name_dict) (st : Store) :
  NoDup (map Player.id (player_rows st)) ->
  NoDup (map Player.id (player_rows (snd (flush (new_players w b st) st)))).
Proof.
  intros Hnd.
  assert (Hadd : forall rows f l,
             NoDup (map Player.id rows) ->
             NoDup (map Player.id
                      (rows ++ [Player.mk (next_id (map Player.id rows)) f l]))).
  { intros rows f l H. rewrite map_app. cbn [map Player.id].
    apply NoDup_app. split; [exact H |]. split; [|apply NoDup_singleton].
    intros x Hx Hx'. apply list_elem_of_singleton in Hx'. subst x.
    apply list_elem_of_In in Hx. now apply next_id_fresh in Hx. }
  unfold new_players.
  destruct (not_ (found_id w st)), (not_ (found_id b st));
    cbn [app flush insert_row snd fst player_rows]; auto.
Qed.

Lemma after_pairings_consistent (game : ParsedGame.t) (st : Store) :
  consistent st -> distinct_sides game -> consistent (after_pairings game st).
Proof.
  intros [Hu [Hk Hr]] Hd. split; [now apply after_pairings_unique_names |].
  destruct (after_pairings_rows game st) as (Hp & Hg & i & j & Hq).
  split.
  - rewrite Hp. now apply new_players_keys.
  - rewrite Hq, Hg, map_app. apply Forall_app. split.
    + eapply Forall_impl; [exact Hr |]. intros p Hin. apply in_or_app. now left.
    + repeat constructor; cbn [Pairing.game_id map Game.id Game.set_id];
        apply in_or_app; right; now left.
Qed.

(** The game just ingested is linked to the rows of its two players. *)
Lemma after_pairings_linked (game : ParsedGame.t) (st : Store) :
  consistent st -> distinct_sides game ->
  exists row W B, linked game (after_pairings game st) row W B.
Proof.
  intros Hc Hd.
  pose proof (after_pairings_consistent game st Hc Hd) as [Hu' [Hk' _]].
  destruct Hc as [Hu [Hk Hr]].
  destruct (after_pairings_rows game st) as (Hp & Hg & i & j & Hq).
  destruct (new_players_found _ _ st Hu Hd) as [Hw Hb].
  fold (after_players game st) in Hw, Hb. rewrite <- Hp in Hw, Hb.
  destruct (found_in_row _ _ _ Hw) as (W & HWin & HWid & HWname).
  destruct (found_in_row _ _ _ Hb) as (B & HBin & HBid & HBname).
  set (gid := next_id (map Game.id (game_rows st))) in *.
  assert (Hne : Player.id W <> Player.id B).
  { intros Heq. apply Hd.
    assert (W = B) by (eapply NoDup_id_eq; eauto). subst B.
    rewrite HWname in HBname.
    destruct (parsed_name (ParsedGame.white game)),
             (parsed_name (ParsedGame.black game)). cbn in HBname. congruence. }
  assert (Hold : Forall (fun p => Pairing.game_id p <> gid) (pairing_rows st)).
  { eapply Forall_impl; [exact Hr |]. intros p Hin Heq. cbn beta in Hin, Heq.
    rewrite Heq in Hin. now apply next_id_fresh in Hin. }
  exists (Game.set_id gid (new_game game)), W, B.
  unfold linked. rewrite Hg, Hq, HWid, HBid.
  cbn [Game.id Game.set_id].
  split; [apply in_or_app; right; now left |].
  split; [reflexivity |].
  split; [exact HWin |]. split; [exact HBin |].
  split; [exact Hw |]. split; [exact Hb |].
  split; [exact HWname |]. split; [exact HBname |].
  split; [congruence |].
  rewrite !(pairing_first_fresh _ _ _ gid Hold). unfold db.pairing_first.
  rewrite <- HWid, <- HBid.
  split; eexists.
  - split; [|shelve].
    rewrite filter_cons, decide_False by (cbn; intros [H _]; congruence).
    rewrite filter_cons, decide_True by (cbn; auto). reflexivity.
  - split; [|shelve].
    rewrite filter_cons, decide_True by (cbn; auto). reflexivity.
  Unshelve. all: reflexivity.
Qed.

Lemma linked_extends (game : ParsedGame.t) (st st' : Store)
      (row : Game.t) (W B : Player.t) :
  extends st st' -> linked game st row W B -> linked game st' row W B.
Proof.
  intros ([k1 H1] & [k2 H2] & [k3 H3])
         (Hrow & Hnew & HW & HB & Hfw & Hfb & Hnw & Hnb & Hne & [rw [Hpw Hcw]] & [rb [Hpb Hcb]]).
  unfold linked. rewrite H1, H2, H3.
  split; [apply in_or_app; now left |]. split; [exact Hnew |].
  split; [apply in_or_app; now left |]. split; [apply in_or_app; now left |].
  split; [now apply found_in_stays |]. split; [now apply found_in_stays |].
  split; [exact Hnw |]. split; [exact Hnb |]. split; [exact Hne |].
  split; eexists; (split; [apply pairing_first_stays; eassumption | assumption]).
Qed.

Lemma after_batch_linked (games : list ParsedGame.t) (st : Store) :
  consistent st -> Forall distinct_sides games ->
  consistent (after_batch games st)
  /\ forall game, In game games ->
       exists row W B, linked game (after_batch games st) row W B.
Proof.
  revert st. induction games as [|g games IH]; intros st Hc Hall.
  - split; [exact Hc | intros game []].
  - inversion Hall as [|? ? Hg Hrest]; subst. rewrite after_batch_cons.
    pose proof (after_pairings_consistent g st Hc Hg) as Hc1.
    destruct (IH (after_pairings g st) Hc1 Hrest) as [Hc2 Hl].
    split; [exact Hc2 |].
    intros game [<- | Hin]; [|now apply Hl].
    destruct (after_pairings_linked g st Hc Hg) as (row & W & B & Hlink).
    exists row, W, B.
    apply (linked_extends g (after_pairings g st)); [apply after_batch_extends | exact Hlink].
Qed.

(** *** A batch that completes *)

Lemma add_games_complete (self : GameParser.t) (games : list ParsedGame.t)
      (s : Session) :
  parsed_games self = Some games -> pending s = [] ->
  fst (add_games self s) = Ok tt ->
  committed (snd (add_games self s)) = after_batch games (committed s).
Proof.
  intros Hgames Hp. rewrite (add_games_for_each self games s Hgames).
  pose proof (for_each_outcome games s Hp) as H. unfold wp in H.
  destruct (for_each games add_one s) as [[[] | e] s']; cbn [fst snd outcome] in *;
    [|discriminate].
  intros _. apply H.
Qed.

(** X18: a batch that completes, started from a consistent store (one
    row per name, positive and distinct player keys, pairings of existing
    games only) and whose games each name two different players, leaves a
    consistent store in which every game of the batch is kept as a Game row
    with the parsed fields, linked by a white and a black pairing to the
    Player rows found under the names parsed from it; so two games naming
    the same player are linked to the same Player row, created once. *)
Theorem add_games_links_players (self : GameParser.t)
        (games : list ParsedGame.t) (s : Session) :
  parsed_games self = Some games ->
  pending s = [] ->
  consistent (committed s) ->
  Forall distinct_sides games ->
  fst (add_games self s) = Ok tt ->
  let st' := committed (snd (add_games self s)) in
  consistent st'
  /\ (forall game, In game games -> exists row W B, linked game st' row W B)
  /\ (forall g1 g2 row1 W1 B1 row2 W2 B2,
        linked g1 st' row1 W1 B1 -> linked g2 st' row2 W2 B2 ->
        (parsed_name (ParsedGame.white g1) = parsed_name (ParsedGame.white g2) ->
         W1 = W2)
        /\ (parsed_name (ParsedGame.white g1) = parsed_name (ParsedGame.black g2) ->
            W1 = B2)).
Proof.
  intros Hgames Hp Hc Hall Hok st'. subst st'.
  rewrite (add_games_complete self games s Hgames Hp Hok).
  destruct (after_batch_linked games (committed s) Hc Hall) as [Hc' Hl].
  split; [exact Hc' |]. split; [exact Hl |].
  intros g1 g2 row1 W1 B1 row2 W2 B2
         (_ & _ & HW1 & _ & Hf1 & _) (_ & _ & HW2 & HB2 & Hfw2 & Hfb2 & _).
  destruct Hc' as [_ [Hk _]].
  split; intros Heq; rewrite Heq in Hf1.
  - apply (NoDup_id_eq _ W1 W2 Hk HW1 HW2). congruence.
  - apply (NoDup_id_eq _ W1 B2 Hk HW1 HB2). congruence.
Qed.

Lemma add_games_links_players_witness :
  exists row W B,
    linked sample_parsed
           (committed (snd (add_games (sample_parser [sample_parsed; sample_parsed])
                                      (empty_session None))))
           row W B.
Proof.
  refine (proj1 (proj2 (add_games_links_players
                          (sample_parser [sample_parsed; sample_parsed])
                          [sample_parsed; sample_parsed] (empty_session None)
                          _ _ _ _ _)) sample_parsed _).
  - reflexivity.
  - reflexivity.
  - repeat split; constructor.
  - repeat constructor; vm_compute; discriminate.
  - reflexivity.
  - now left.
Defined.

(** *** From ingestion to the dictionary *)

Lemma linked_resolution (game : ParsedGame.t) (st : Store)
      (row : Game.t) (W B : Player.t) (players : list Player.t) :
  linked game st row W B ->
  players = [W; B] \/ players = [B; W] ->
  unparse_players_with_color (pairing_rows st) players (Game.id row)
  = Ok (Spec.colored W B).
Proof.
  intros (_ & _ & _ & _ & _ & _ & _ & _ & _ & [rw [Hpw Hcw]] & [rb [Hpb Hcb]]) [-> | ->].
  - rewrite (unparse_players_with_color_found _ W B _ rw rb Hpw Hpb). now rewrite Hcw.
  - rewrite (unparse_players_with_color_found _ B W _ rb rw Hpb Hpw).
    now rewrite Hcb, Hcw.
Qed.

Lemma game_dict_parsed (full_name : Player.t -> string) (W B : Player.t)
      (game : ParsedGame.t) (row g : Game.t) :
  Game.set_id 0 row = new_game game ->
  Game.event g = Game.event row -> Game.site g = Game.site row ->
  Game.date g = Game.date row -> Game.match_round g = Game.match_round row ->
  Game.white_elo g = Game.white_elo row -> Game.black_elo g = Game.black_elo row ->
  Game.moves g = Game.moves row -> Game.eco g = Game.eco row ->
  game_dict full_name W B g = parsed_dict full_name W B game.
Proof.
  intros Hnew He Hs Hd Hr Hw Hb Hm Hc. unfold game_dict, parsed_dict.
  rewrite He, Hs, Hd, Hr, Hw, Hb, Hm, Hc.
  destruct row. unfold Game.set_id, new_game in Hnew.
  cbn [Game.id Game.event Game.site Game.date Game.match_round Game.result
       Game.white_elo Game.black_elo Game.moves Game.eco Game.players Game.attrs] in *.
  injection Hnew as -> -> -> -> -> -> -> -> -> -> ->. reflexivity.
Qed.

(** X19: round trip from text to dictionary.  After a batch that
    completes (from a consistent store, each game naming two different
    players), every game of the batch has a Game row which, fetched with
    its two players in either order and formatted as dict, gives back the
    parsed event, site, date, round, ratings and ECO code, the display
    names of the Player rows that carry the parsed names, and the moves
    joined by commas. *)
Theorem ingest_then_format_dict (full_name : Player.t -> string)
        (dumps : Game.t -> string) (self : GameParser.t)
        (games : list ParsedGame.t) (s : Session) :
  parsed_games self = Some games ->
  pending s = [] ->
  consistent (committed s) ->
  Forall distinct_sides games ->
  fst (add_games self s) = Ok tt ->
  let st' := committed (snd (add_games self s)) in
  forall game, In game games ->
    exists row W B,
      In row (game_rows st') /\ In W (player_rows st') /\ In B (player_rows st')
      /\ name_of W = (first_name (parsed_name (ParsedGame.white game)),
                      last_name (parsed_name (ParsedGame.white game)))
      /\ name_of B = (first_name (parsed_name (ParsedGame.black game)),
                      last_name (parsed_name (ParsedGame.black game)))
      /\ forall players rt,
           players = [W; B] \/ players = [B; W] ->
           rt = "dict" \/ rt = "json" ->
           fst (format_game full_name dumps (pairing_rows st') rt
                            (Game.set_players players row))
           = Ok (Dict (parsed_dict full_name W B game)).
Proof.
  intros Hgames Hp Hc Hall Hok st' game Hin. subst st'.
  rewrite (add_games_complete self games s Hgames Hp Hok).
  destruct (after_batch_linked games (committed s) Hc Hall) as [_ Hl].
  destruct (Hl game Hin) as (row & W & B & Hlink).
  exists row, W, B.
  pose proof Hlink as (Hrow & Hnew & HW & HB & _ & _ & HnW & HnB & _).
  repeat (split; [assumption |]).
  intros players rt Hpl Hrt.
  pose proof (linked_resolution game _ row W B players Hlink Hpl) as Hres.
  rewrite (format_game_dict full_name dumps _ rt (Game.set_players players row)
             (Spec.colored W B) W B Hres) by (reflexivity || assumption).
  cbn [fst]. do 2 f_equal.
  now apply (game_dict_parsed full_name W B game row).
Qed.

Lemma ingest_then_format_dict_witness :
  exists row W B,
    fst (format_game Spec.full_name (fun _ => "")
           (pairing_rows (committed (snd (add_games (sample_parser [sample_parsed])
                                                    (empty_session None)))))
           "dict" (Game.set_players [B; W] row))
    = Ok (Dict (parsed_dict Spec.full_name W B sample_parsed))
    /\ Spec.full_name W = "Anatoly Karpov".
Proof.
  destruct (ingest_then_format_dict Spec.full_name (fun _ => "")
              (sample_parser [sample_parsed]) [sample_parsed] (empty_session None))
    with (game := sample_parsed)
    as (row & W & B & _ & _ & _ & HW & _ & Hfmt).
  - reflexivity.
  - reflexivity.
  - repeat split; constructor.
  - repeat constructor; vm_compute; discriminate.
  - reflexivity.
  - now left.
  - exists row, W, B. split.
    + apply Hfmt; [now right | now left].
    + unfold Spec.full_name. destruct W. unfold name_of in HW. cbn in *.
      now injection HW as -> ->.
Defined.

(** *** How much a batch adds *)

Lemma after_players_count (game : ParsedGame.t) (st : Store) :
  exists k, player_rows (after_players game st) = player_rows st ++ k
            /\ length k <= 2.
Proof.
  unfold after_players, new_players.
  destruct (not_ (found_id _ st)), (not_ (found_id _ st));
    cbn [app flush insert_row snd fst player_rows].
  - rewrite <- app_assoc. eexists. split; [reflexivity |]. cbn. lia.
  - eexists. split; [reflexivity |]. cbn. lia.
  - eexists. split; [reflexivity |]. cbn. lia.
  - exists []. split; [now rewrite app_nil_r |]. cbn. lia.
Qed.

Lemma after_batch_counts (games : list ParsedGame.t) (st : Store) :
  exists rows prs k,
    game_rows (after_batch games st) = game_rows st ++ rows
    /\ map (Game.set_id 0) rows = map new_game games
    /\ pairing_rows (after_batch games st) = pairing_rows st ++ prs
    /\ length prs = 2 * length games
    /\ player_rows (after_batch games st) = player_rows st ++ k
    /\ length k <= 2 * length games.
Proof.
  revert st. induction games as [|g games IH]; intros st.
  - exists [], [], []. cbn. rewrite !app_nil_r. repeat split; lia.
  - rewrite after_batch_cons.
    destruct (IH (after_pairings g st)) as (rows & prs & k & Hg & Hrows & Hq & Hprs & Hp & Hk).
    destruct (after_pairings_rows g st) as (Hp1 & Hg1 & i & j & Hq1).
    destruct (after_players_count g st) as (k1 & Hk1 & Hlen1).
    rewrite Hg, Hq, Hp, Hg1, Hq1, Hp1, Hk1, <- !app_assoc.
    eexists _, _, _. split; [reflexivity |]. split.
    + cbn [app map Game.set_id]. now rewrite Hrows.
    + split; [reflexivity |]. split; [rewrite length_app; cbn [length]; lia |].
      split; [reflexivity |]. rewrite length_app. cbn [length]. lia.
Qed.

(** X20: a batch that completes adds exactly one Game row per parsed
    game, in the order of the batch, each holding the parsed fields with
    the moves joined by commas; it adds exactly two Pairing rows per game
    and at most two Player rows per game. *)
Theorem add_games_adds_per_game (self : GameParser.t)
        (games : list ParsedGame.t) (s : Session) :
  parsed_games self = Some games ->
  pending s = [] ->
  fst (add_games self s) = Ok tt ->
  let st := committed s in
  let st' := committed (snd (add_games self s)) in
  exists rows prs k,
    game_rows st' = game_rows st ++ rows
    /\ map (Game.set_id 0) rows = map new_game games
    /\ pairing_rows st' = pairing_rows st ++ prs
    /\ length prs = 2 * length games
    /\ player_rows st' = player_rows st ++ k
    /\ length k <= 2 * length games.
Proof.
  intros Hgames Hp Hok st st'. subst st st'.
  rewrite (add_games_complete self games s Hgames Hp Hok).
  apply after_batch_counts.
Qed.

Lemma add_games_adds_per_game_witness :
  let st' := committed (snd (add_games (sample_parser [sample_parsed; mirror_parsed])
                                       (empty_session None))) in
  exists rows prs k,
    game_rows st' = [] ++ rows
    /\ map (Game.set_id 0) rows = map new_game [sample_parsed; mirror_parsed]
    /\ pairing_rows st' = [] ++ prs
    /\ length prs = 4
    /\ player_rows st' = [] ++ k
    /\ length k <= 4.
Proof.
  apply (add_games_adds_per_game (sample_parser [sample_parsed; mirror_parsed])
           [sample_parsed; mirror_parsed] (empty_session None));
    reflexivity.
Defined.

(** *** One row per name *)

Lemma after_batch_names (games : list ParsedGame.t) (st : Store) :
  unique_names st -> Forall distinct_sides games ->
  forall game, In game games ->
    found_in (parsed_name (ParsedGame.white game)) (player_rows (after_batch games st))
    <> None
    /\ found_in (parsed_name (ParsedGame.black game)) (player_rows (after_batch games st))
       <> None.
Proof.
  revert st. induction games as [|g games IH]; intros st Hu Hall game; [intros [] |].
  inversion Hall as [|? ? Hg Hrest]; subst. rewrite after_batch_cons.
  intros [<- | Hin].
  - destruct (new_players_found _ _ st Hu Hg) as [Hw Hb].
    fold (after_players g st) in Hw, Hb.
    destruct (after_pairings_rows g st) as (Hp & _). rewrite <- Hp in Hw, Hb.
    destruct (after_batch_extends games (after_pairings g st)) as ([k ->] & _).
    rewrite (found_in_stays _ _ k _ Hw), (found_in_stays _ _ k _ Hb).
    split; discriminate.
  - apply IH; auto using after_pairings_unique_names.
Qed.

(** X21: exactly one Player row per name.  When the store has one row
    per name and positive keys, and every game of the batch names two
    different players, a batch that completes leaves one row per name, and
    each name parsed from the batch is carried by a row. *)
Theorem add_games_one_row_per_name (self : GameParser.t)
        (games : list ParsedGame.t) (s : Session) :
  parsed_games self = Some games ->
  pending s = [] ->
  unique_names (committed s) ->
  Forall distinct_sides games ->
  fst (add_games self s) = Ok tt ->
  let st' := committed (snd (add_games self s)) in
  NoDup (map name_of (player_rows st'))
  /\ forall game, In game games ->
       (first_name (parsed_name (ParsedGame.white game)),
        last_name (parsed_name (ParsedGame.white game))) ∈ map name_of (player_rows st')
       /\ (first_name (parsed_name (ParsedGame.black game)),
           last_name (parsed_name (ParsedGame.black game))) ∈ map name_of (player_rows st').
Proof.
  intros Hgames Hp Hu Hall Hok st'. subst st'.
  rewrite (add_games_complete self games s Hgames Hp Hok).
  split; [apply (after_batch_unique_names games (committed s) Hu Hall) |].
  intros game Hin.
  destruct (after_batch_names games (committed s) Hu Hall game Hin) as [Hw Hb].
  split.
  - destruct (found_in _ _) as [i|] eqn:Hf in Hw; [|congruence].
    apply found_in_row in Hf as (p & Hp' & _ & <-).
    apply list_elem_of_In, in_map, Hp'.
  - destruct (found_in _ _) as [i|] eqn:Hf in Hb; [|congruence].
    apply found_in_row in Hf as (p & Hp' & _ & <-).
    apply list_elem_of_In, in_map, Hp'.
Qed.

Lemma add_games_one_row_per_name_witness :
  NoDup (map name_of
           (player_rows
              (committed (snd (add_games (sample_parser [sample_parsed; sample_parsed])
                                         (empty_session None)))))).
Proof.
  refine (proj1 (add_games_one_row_per_name
                   (sample_parser [sample_parsed; sample_parsed])
                   [sample_parsed; sample_parsed] (empty_session None) _ _ _ _ _)).
  - reflexivity.
  - reflexivity.
  - split; constructor.
  - repeat constructor; vm_compute; discriminate.
  - reflexivity.
Defined.
